(** * SOLID examples: the specification filter and the journal

    A shallow embedding of [SOLID/OpenClosed/open_closed.py] and of the
    [Journal] class of [SOLID/SingleResponsibility/single_responsibility.py].

    The specification classes are modelled twice.  The first model is a tree
    of values: a composite holds its children, [is_satisfied] is a function,
    and the lazy [map] object the combinators build is a list of suspended
    calls that [any] and [all] consume from the front.  The second model is
    an object store: a composite holds the addresses of its children, a
    [map] object and a generator are objects with a position that is
    updated in place, and every operation threads the store.  A refinement
    lemma connects the two. *)

From stdpp Require Import base option list strings pretty.
From Stdlib Require Import ZArith Lia Ascii.

Local Open Scope Z_scope.
Local Open Scope nat_scope.

Set Warnings "-register-all".

(** ** Data model of [open_closed.py] *)

Inductive Color := RED | GREEN | BLUE.

Inductive Size := SMALL | MEDIUM | LARGE.

#[global] Instance Color_eq_dec : EqDecision Color.
Proof. solve_decision. Defined.

#[global] Instance Size_eq_dec : EqDecision Size.
Proof. solve_decision. Defined.

(** The members of an [Enum] are singletons, so [a is b] on two members is
    equality of members. *)
Definition Color_is (a b : Color) : bool := bool_decide (a = b).

Definition Size_is (a b : Size) : bool := bool_decide (a = b).

Record Product := mkProduct {
  name : string;
  color : Color;
  size : Size
}.

#[global] Instance Product_eq_dec : EqDecision Product.
Proof. solve_decision. Defined.

(** ** Lazy iterators

    [map(f, xs)] computes nothing when it is built: element [k] is the call
    [f(xs[k])], made when the consumer asks for it.  A [map] object is the
    list of the calls it has not made yet. *)

Definition map_object (B : Type) : Type := list (unit → B).

Definition py_map {A B : Type} (f : A → B) (xs : list A) : map_object B :=
  (λ x (_ : unit), f x) <$> xs.

(** [any(it)] asks for elements until one is true, and leaves the rest in
    the iterator; the second component is the iterator afterwards. *)
Fixpoint py_any (it : map_object bool) : bool * map_object bool :=
  match it with
  | [] => (false, [])
  | call :: rest => if call () then (true, rest) else py_any rest
  end.

(** [all(it)] asks for elements until one is false. *)
Fixpoint py_all (it : map_object bool) : bool * map_object bool :=
  match it with
  | [] => (true, [])
  | call :: rest => if call () then py_all rest else (false, rest)
  end.

(** ** Specifications as values *)

Inductive Specification :=
  | ColorSpecification (color : Color)
  | SizeSpecification (size : Size)
  | AndSpecification (_specs : list Specification)
  | OrSpecification (_specs : list Specification)
  | XorSpecification (_specs : list Specification).

Fixpoint is_satisfied (self : Specification) (item : Product) : bool :=
  match self with
  | ColorSpecification c => Color_is (color item) c
  | SizeSpecification s => Size_is (size item) s
  | AndSpecification _specs =>
      (py_all (py_map (λ spec, is_satisfied spec item) _specs)).1
  | OrSpecification _specs =>
      (py_any (py_map (λ spec, is_satisfied spec item) _specs)).1
  | XorSpecification _specs =>
      let satisfied := py_map (λ spec, is_satisfied spec item) _specs in
      let '(found, satisfied) := py_any satisfied in
      if found then negb (py_any satisfied).1 else false
  end.

(** [Specification.__and__], [__or__] and [__xor__]. *)
Definition spec_and (self other : Specification) : Specification :=
  AndSpecification [self; other].

Definition spec_or (self other : Specification) : Specification :=
  OrSpecification [self; other].

Definition spec_xor (self other : Specification) : Specification :=
  XorSpecification [self; other].

(** The number of nested [is_satisfied] calls an evaluation makes. *)
Fixpoint height (s : Specification) : nat :=
  match s with
  | ColorSpecification _ | SizeSpecification _ => 0
  | AndSpecification ss | OrSpecification ss | XorSpecification ss =>
      S (foldr (λ c acc, height c `max` acc) 0 ss)
  end.

(** The number of children that the item satisfies. *)
Definition count_satisfied (specs : list Specification) (item : Product) : nat :=
  length (List.filter (λ spec, is_satisfied spec item) specs).

(** ** Generators as the sequence of their yields

    A generator function whose body is one [for] loop yields, for each
    element in turn, what the loop body yields for it. *)

Definition filter_by_color (items : list Product) (c : Color) : list Product :=
  item ← items; if Color_is (color item) c then [item] else [].

Definition filter_by_size (items : list Product) (s : Size) : list Product :=
  item ← items; if Size_is (size item) s then [item] else [].

Definition filter_by_size_and_color (items : list Product) (s : Size) (c : Color)
  : list Product :=
  item ← items;
  if Color_is (color item) c && Size_is (size item) s then [item] else [].

Definition BetterFilter_filter (items : list Product) (spec : Specification)
  : list Product :=
  item ← items; if is_satisfied spec item then [item] else [].

(** The products of the module's demonstration. *)
Definition apple : Product := mkProduct "Apple" GREEN SMALL.
Definition tree : Product := mkProduct "Tree" GREEN LARGE.
Definition house : Product := mkProduct "House" BLUE LARGE.
Definition products : list Product := [apple; tree; house].

(** One more large product, to append to [products]. *)
Definition barn : Product := mkProduct "Barn" RED LARGE.

(** The leaf specifications of the module's demonstration. *)
Definition green : Specification := ColorSpecification GREEN.
Definition large : Specification := SizeSpecification LARGE.
Definition blue : Specification := ColorSpecification BLUE.

(** ** The object store

    Objects live at addresses.  A composite specification holds the
    addresses of its children (its [_specs] tuple, which is immutable and is
    therefore kept by value inside the composite).  A [map] object holds the
    item its lambda closed over, the tuple it iterates and its position in
    it; a generator holds the arguments of the suspended [filter] call and
    the position of its [for] loop in [items].  Both positions are updated in
    place.  A generator whose body has returned has no frame left: it is
    finished, for ever.  Allocation takes the next free address and nothing
    is freed. *)

Abbreviation loc := nat.

Inductive obj :=
  | OColorSpecification (color : Color)
  | OSizeSpecification (size : Size)
  | OAndSpecification (_specs : list loc)
  | OOrSpecification (_specs : list loc)
  | OXorSpecification (_specs : list loc)
  | OList (elems : list Product)
  | OMap (item : Product) (specs : list loc) (pos : nat)
  | OGenerator (items spec : loc) (pos : nat)
  | OFinishedGenerator.

Abbreviation heap := (list obj).

(** Computations read and write the store and may raise ([None]): an
    attribute or type error on an object of the wrong class, or a loop that
    used up its bound. *)
Definition M (A : Type) : Type := heap → option (A * heap).

Definition ret {A} (a : A) : M A := λ h, Some (a, h).

Definition raise {A} : M A := λ _, None.

Definition bind {A B} (m : M A) (k : A → M B) : M B :=
  λ h, match m h with
       | Some (a, h') => k a h'
       | None => None
       end.

Notation "'let!' x ':=' m 'in' k" := (bind m (λ x, k))
  (at level 10, x pattern, m at level 100, k at level 200,
   format "'[v' 'let!'  x  ':='  m  'in' '/' k ']'").

Definition deref (l : loc) : M obj :=
  λ h, match h !! l with
       | Some o => Some (o, h)
       | None => None
       end.

Definition alloc (o : obj) : M loc := λ h, Some (length h, h ++ [o]).

Definition store (l : loc) (o : obj) : M unit := λ h, Some ((), <[l := o]> h).

(** [next] of the object [map(lambda spec: spec.is_satisfied(item), specs)]:
    advance the tuple iterator, then call the lambda; [None] is
    [StopIteration]. *)
Definition map_next (call : loc → Product → M bool) (m : loc) : M (option bool) :=
  let! o := deref m in
  match o with
  | OMap item specs pos =>
      match specs !! pos with
      | None => ret None
      | Some spec =>
          let! _ := store m (OMap item specs (S pos)) in
          let! v := call spec item in
          ret (Some v)
      end
  | _ => raise
  end.

(** The number of elements a [map] object has not visited yet. *)
Definition map_remaining (m : loc) : M nat :=
  let! o := deref m in
  match o with
  | OMap _ specs pos => ret (length specs - pos)
  | _ => raise
  end.

Fixpoint any_loop (call : loc → Product → M bool) (m : loc) (k : nat) : M bool :=
  match k with
  | 0 => raise
  | S k' =>
      let! r := map_next call m in
      match r with
      | None => ret false
      | Some true => ret true
      | Some false => any_loop call m k'
      end
  end.

Fixpoint all_loop (call : loc → Product → M bool) (m : loc) (k : nat) : M bool :=
  match k with
  | 0 => raise
  | S k' =>
      let! r := map_next call m in
      match r with
      | None => ret true
      | Some false => ret false
      | Some true => all_loop call m k'
      end
  end.

(** [any(m)] and [all(m)]: at most one [next] per remaining element, and one
    more that meets [StopIteration]. *)
Definition obj_any (call : loc → Product → M bool) (m : loc) : M bool :=
  let! n := map_remaining m in any_loop call m (S n).

Definition obj_all (call : loc → Product → M bool) (m : loc) : M bool :=
  let! n := map_remaining m in all_loop call m (S n).

(** [self.is_satisfied(item)], dispatched on the class of the object at
    [self].  [fuel] bounds the depth of nested calls. *)
Fixpoint obj_is_satisfied (fuel : nat) (self : loc) (item : Product) : M bool :=
  match fuel with
  | 0 => raise
  | S fuel' =>
      let! o := deref self in
      match o with
      | OColorSpecification c => ret (Color_is (color item) c)
      | OSizeSpecification s => ret (Size_is (size item) s)
      | OAndSpecification _specs =>
          let! satisfied := alloc (OMap item _specs 0) in
          obj_all (obj_is_satisfied fuel') satisfied
      | OOrSpecification _specs =>
          let! satisfied := alloc (OMap item _specs 0) in
          obj_any (obj_is_satisfied fuel') satisfied
      | OXorSpecification _specs =>
          let! satisfied := alloc (OMap item _specs 0) in
          let! found := obj_any (obj_is_satisfied fuel') satisfied in
          if found
          then let! again := obj_any (obj_is_satisfied fuel') satisfied in
               ret (negb again)
          else ret false
      | _ => raise
      end
  end.

(** [Specification.__and__], [__or__] and [__xor__] on objects. *)
Definition obj_and (self other : loc) : M loc :=
  alloc (OAndSpecification [self; other]).

Definition obj_or (self other : loc) : M loc :=
  alloc (OOrSpecification [self; other]).

Definition obj_xor (self other : loc) : M loc :=
  alloc (OXorSpecification [self; other]).

(** [BetterFilter.filter(items, spec)]: calling a generator function runs
    none of its body; it returns the generator. *)
Definition obj_filter (items spec : loc) : M loc :=
  alloc (OGenerator items spec 0).

(** Resuming the generator runs the [for] loop up to the next [yield]
    ([Some item]) or to the end of the function ([None], [StopIteration]).
    The list is read through its address at every step.  When the loop
    meets the end of the list the function returns and the generator is
    finished; resuming a finished generator is [StopIteration] again,
    whatever the list holds by then. *)
Fixpoint gen_resume (fuel : nat) (g : loc) (k : nat) : M (option Product) :=
  match k with
  | 0 => raise
  | S k' =>
      let! o := deref g in
      match o with
      | OGenerator items spec pos =>
          let! c := deref items in
          match c with
          | OList elems =>
              match elems !! pos with
              | None =>
                  let! _ := store g OFinishedGenerator in
                  ret None
              | Some item =>
                  let! _ := store g (OGenerator items spec (S pos)) in
                  let! ok := obj_is_satisfied fuel spec item in
                  if ok then ret (Some item) else gen_resume fuel g k'
              end
          | _ => raise
          end
      | OFinishedGenerator => ret None
      | _ => raise
      end
  end.

(** The number of elements the loop of a generator has not visited yet;
    none when it is finished. *)
Definition gen_remaining (g : loc) : M nat :=
  let! o := deref g in
  match o with
  | OGenerator items _ pos =>
      let! c := deref items in
      match c with
      | OList elems => ret (length elems - pos)
      | _ => raise
      end
  | OFinishedGenerator => ret 0
  | _ => raise
  end.

Definition gen_next (fuel : nat) (g : loc) : M (option Product) :=
  let! n := gen_remaining g in gen_resume fuel g (S n).

Fixpoint list_loop (fuel : nat) (g : loc) (k : nat) : M (list Product) :=
  match k with
  | 0 => raise
  | S k' =>
      let! r := gen_next fuel g in
      match r with
      | None => ret []
      | Some x => let! xs := list_loop fuel g k' in ret (x :: xs)
      end
  end.

(** [list(g)]: materialise what the generator still yields. *)
Definition py_list (fuel : nat) (g : loc) : M (list Product) :=
  let! n := gen_remaining g in list_loop fuel g (S n).

(** [list(BetterFilter().filter(items, spec))]. *)
Definition filtered (fuel : nat) (items spec : loc) : M (list Product) :=
  let! g := obj_filter items spec in py_list fuel g.

(** [items.append(item)] on a list of the store: what a caller that holds
    the list can do between two uses of a generator over it. *)
Definition obj_append (items : loc) (item : Product) : M unit :=
  let! c := deref items in
  match c with
  | OList elems => store items (OList (elems ++ [item]))
  | _ => raise
  end.

(** ** Objects that represent specification values *)

Section forallb2.

Context {A B : Type} (f : A → B → bool).

(** [f] holds of two lists of the same length element by element. *)
Fixpoint forallb2 (xs : list A) (ys : list B) : bool :=
  match xs, ys with
  | [], [] => true
  | x :: xs, y :: ys => f x y && forallb2 xs ys
  | _, _ => false
  end.

End forallb2.

(** [represents h s l]: the object at [l], with the objects it reaches, is
    the specification [s]. *)
Fixpoint represents (h : heap) (s : Specification) (l : loc) : bool :=
  match s, h !! l with
  | ColorSpecification c, Some (OColorSpecification c') => bool_decide (c = c')
  | SizeSpecification z, Some (OSizeSpecification z') => bool_decide (z = z')
  | AndSpecification ss, Some (OAndSpecification ls) => forallb2 (represents h) ss ls
  | OrSpecification ss, Some (OOrSpecification ls) => forallb2 (represents h) ss ls
  | XorSpecification ss, Some (OXorSpecification ls) => forallb2 (represents h) ss ls
  | _, _ => false
  end.

(** The store of the module's demonstration before any specification is
    combined: the specifications [large] and [green], and the list
    [products]. *)
Definition demo_store : heap :=
  [OSizeSpecification LARGE; OColorSpecification GREEN; OList products].

(** ** The journal of [single_responsibility.py] *)

Record Journal := mkJournal { entries : list string }.

Definition Journal_init : Journal := mkJournal [].

(** [self.entries.append(f"{text}")]; formatting a [str] gives the same
    [str]. *)
Definition add_entry (text : string) (self : Journal) : Journal :=
  mkJournal (entries self ++ [text]).

(** [del self.entries[entry_num - 1]]: a negative index counts from the end,
    and an index out of range raises [IndexError] ([None]). *)
Definition remove_entry (entry_num : Z) (self : Journal) : option Journal :=
  let n := Z.of_nat (length (entries self)) in
  let i := (entry_num - 1)%Z in
  let i := if (i <? 0)%Z then (i + n)%Z else i in
  if ((i <? 0) || (n <=? i))%Z then None
  else Some (mkJournal (delete (Z.to_nat i) (entries self))).

(** ** Printing

    Standard output is the text written so far; [print(x)] writes [x] and a
    newline. *)

Definition newline : string := String "010"%char "".

Definition print (line : string) (stdout : string) : string :=
  stdout +:+ line +:+ newline.

(** [print_filtered_products(title, filtered_items)] on a list, as the
    tests call it. *)
Definition print_filtered_products (title : string) (filtered_items : list Product)
    (stdout : string) : string :=
  let stdout := print (title +:+ " (new):") stdout in
  let stdout :=
    foldl (λ out item, print ("- " +:+ name item +:+ " is " +:+ title) out)
          stdout filtered_items in
  print newline stdout.

(** The [for] loop of [print_filtered_products] over a generator: one [next]
    per turn, one line per yield. *)
Fixpoint print_loop (fuel : nat) (title : string) (g : loc) (k : nat)
    (stdout : string) : M string :=
  match k with
  | 0 => raise
  | S k' =>
      let! r := gen_next fuel g in
      match r with
      | None => ret stdout
      | Some item =>
          print_loop fuel title g k'
            (print ("- " +:+ name item +:+ " is " +:+ title) stdout)
      end
  end.

(** [print_filtered_products(title, g)] on a generator of the store, as the
    demonstration calls it. *)
Definition obj_print_filtered_products (fuel : nat) (title : string) (g : loc)
    (stdout : string) : M string :=
  let stdout := print (title +:+ " (new):") stdout in
  let! n := gen_remaining g in
  let! stdout := print_loop fuel title g (S n) stdout in
  ret (print newline stdout).

(** [Journal.__str__]: the entries, numbered from 1, one per line. *)
Definition Journal_str (self : Journal) : string :=
  String.concat newline
    (imap (λ index entry, pretty (index + 1) +:+ ": " +:+ entry) (entries self)).

(** ** The orders of [liskov_substitution.py]

    [items], [quantities] and [prices] are attributes of the class [Order]:
    one list each, made when the class body runs, and reached by every
    instance.  [status] is a class attribute too, the string ["open"], until
    an assignment gives an instance a [status] of its own. *)

Record world := mkWorld {
  Order_items : list string;
  Order_quantities : list Z;
  Order_prices : list Z;
  (* for each instance of [Order], its own [status] once assigned *)
  Order_instances : list (option string);
  stdout : string
}.

(** The world after the module is imported. *)
Definition world_init : world := mkWorld [] [] [] [] "".

(** [Order()] *)
Definition Order_new (w : world) : nat * world :=
  (length (Order_instances w),
   mkWorld (Order_items w) (Order_quantities w) (Order_prices w)
           (Order_instances w ++ [None]) (stdout w)).

(** [self.status] *)
Definition Order_status (self : nat) (w : world) : option string :=
  own ← Order_instances w !! self; Some (default "open"%string own).

Definition add_item (self : nat) (item_name : string) (quantity price : Z)
    (w : world) : option world :=
  _ ← Order_instances w !! self;
  Some (mkWorld (Order_items w ++ [item_name])
                (Order_quantities w ++ [quantity])
                (Order_prices w ++ [price])
                (Order_instances w) (stdout w)).

(** [total_price]: the loop over [range(len(self.prices))]; an index that
    [quantities] does not have raises [IndexError] ([None]). *)
Definition total_price (self : nat) (w : world) : option Z :=
  _ ← Order_instances w !! self;
  foldl (λ total i,
           total ← total;
           quantity ← Order_quantities w !! i;
           price ← Order_prices w !! i;
           Some (total + (quantity + price))%Z)
        (Some 0%Z) (seq 0 (length (Order_prices w))).

Inductive PaymentProcessor :=
  | DebitPaymentProcessor (_security_code : string)
  | CreditPaymentProcessor (_security_code : string)
  | PaypalPaymentProcessor (_email : string).

(** The two lines a processor prints. *)
Definition pay_lines (self : PaymentProcessor) : string * string :=
  match self with
  | DebitPaymentProcessor code =>
      ("Processing debit payment type", "Verifying security code: " +:+ code)
  | CreditPaymentProcessor code =>
      ("Processing credit payment type", "Verifying security code: " +:+ code)
  | PaypalPaymentProcessor email =>
      ("Processing paypal payment type", "Verifying email address: " +:+ email)
  end%string.

(** [self.pay(order)]: two prints, then [order.status = "paid"]. *)
Definition pay (self : PaymentProcessor) (order : nat) (w : world) : option world :=
  _ ← Order_instances w !! order;
  let out := print (pay_lines self).2 (print (pay_lines self).1 (stdout w)) in
  Some (mkWorld (Order_items w) (Order_quantities w) (Order_prices w)
                (<[order := Some "paid"%string]> (Order_instances w)) out).

(** The objects that have an [is_satisfied] method. *)
Definition obj_is_specification (o : obj) : bool :=
  match o with
  | OColorSpecification _ | OSizeSpecification _
  | OAndSpecification _ | OOrSpecification _ | OXorSpecification _ => true
  | OList _ | OMap _ _ _ | OGenerator _ _ _ | OFinishedGenerator => false
  end.

(** The world of the module's demonstration once the three items have been
    added to [new_order]. *)
Definition demo_world : world :=
  mkWorld ["Keyboard"; "Mouse"; "Monitor"]%string [1; 1; 1]%Z [150; 100; 450]%Z
          [None] "".

(** * Properties of the value model *)

Section value_model.

Implicit Types (item : Product) (items : list Product).
Implicit Types (s a b : Specification) (specs : list Specification).

(** Induction on a specification with the hypothesis for every child. *)
Lemma Specification_children_ind (P : Specification → Prop) :
  (∀ c, P (ColorSpecification c)) →
  (∀ z, P (SizeSpecification z)) →
  (∀ specs, Forall P specs → P (AndSpecification specs)) →
  (∀ specs, Forall P specs → P (OrSpecification specs)) →
  (∀ specs, Forall P specs → P (XorSpecification specs)) →
  ∀ s, P s.
Proof.
  intros Hc Hz Hand Hor Hxor.
  fix IH 1. intros [c|z|specs|specs|specs].
  - apply Hc.
  - apply Hz.
  - apply Hand. induction specs as [|s specs IHspecs]; constructor; [apply IH | exact IHspecs].
  - apply Hor. induction specs as [|s specs IHspecs]; constructor; [apply IH | exact IHspecs].
  - apply Hxor. induction specs as [|s specs IHspecs]; constructor; [apply IH | exact IHspecs].
Qed.

Lemma py_all_value {A} (f : A → bool) (xs : list A) :
  (py_all (py_map f xs)).1 = forallb f xs.
Proof.
  induction xs as [|x xs IH]; simpl; [reflexivity|].
  destruct (f x); simpl; [exact IH | reflexivity].
Qed.

Lemma py_any_value {A} (f : A → bool) (xs : list A) :
  (py_any (py_map f xs)).1 = existsb f xs.
Proof.
  induction xs as [|x xs IH]; simpl; [reflexivity|].
  destruct (f x); simpl; [reflexivity | exact IH].
Qed.

Lemma existsb_filter_length {A} (f : A → bool) (xs : list A) :
  existsb f xs = negb (length (List.filter f xs) =? 0).
Proof.
  induction xs as [|x xs IH]; simpl; [reflexivity|].
  destruct (f x); simpl; [reflexivity | exact IH].
Qed.

(** The value of [any(satisfied) and not any(satisfied)] when both calls
    consume the same iterator. *)
Lemma any_and_not_any {A} (f : A → bool) (xs : list A) :
  (let '(found, rest) := py_any (py_map f xs) in
   if found then negb (py_any rest).1 else false)
  = (length (List.filter f xs) =? 1).
Proof.
  induction xs as [|x xs IH]; simpl; [reflexivity|].
  destruct (f x) eqn:Hx; simpl.
  - fold (py_map f xs). rewrite py_any_value, existsb_filter_length.
    rewrite Bool.negb_involutive. reflexivity.
  - exact IH.
Qed.

Lemma is_satisfied_and specs item :
  is_satisfied (AndSpecification specs) item
  = forallb (λ spec, is_satisfied spec item) specs.
Proof. simpl. apply py_all_value. Qed.

Lemma is_satisfied_or specs item :
  is_satisfied (OrSpecification specs) item
  = existsb (λ spec, is_satisfied spec item) specs.
Proof. simpl. apply py_any_value. Qed.

Lemma is_satisfied_xor specs item :
  is_satisfied (XorSpecification specs) item
  = (count_satisfied specs item =? 1).
Proof. simpl. apply (any_and_not_any (λ spec, is_satisfied spec item)). Qed.

Lemma yields_filter {A} (f : A → bool) (xs : list A) :
  (x ← xs; if f x then [x] else []) = List.filter f xs.
Proof.
  induction xs as [|x xs IH]; [reflexivity|].
  rewrite bind_cons, IH. simpl. destruct (f x); reflexivity.
Qed.

Lemma yields_ext {A} (f g : A → bool) (xs : list A) :
  (∀ x, f x = g x) →
  (x ← xs; if f x then [x] else []) = (x ← xs; if g x then [x] else []).
Proof.
  intros Hfg. induction xs as [|x xs IH]; [reflexivity|].
  rewrite !bind_cons, IH, Hfg. reflexivity.
Qed.

Lemma filter_sublist {A} (f : A → bool) (xs : list A) :
  sublist (List.filter f xs) xs.
Proof.
  induction xs as [|x xs IH]; simpl; [constructor|].
  destruct (f x); [apply sublist_skip | apply sublist_cons]; exact IH.
Qed.

End value_model.

(** * Properties of the object store *)

Section object_store.

Implicit Types (h H : heap) (l m g : loc) (item : Product).
Implicit Types (s : Specification) (ss : list Specification) (ls : list loc).

Lemma forallb2_length {A B} (f : A → B → bool) xs ys :
  forallb2 f xs ys = true → length xs = length ys.
Proof.
  revert ys. induction xs as [|x xs IH]; intros [|y ys]; simpl; try discriminate.
  - reflexivity.
  - intros [_ Hrest]%andb_true_iff. f_equal. apply IH, Hrest.
Qed.

Lemma forallb2_lookup {A B} (f : A → B → bool) xs ys i x y :
  forallb2 f xs ys = true → xs !! i = Some x → ys !! i = Some y → f x y = true.
Proof.
  revert ys i. induction xs as [|x' xs IH]; intros [|y' ys] i; simpl; try discriminate.
  intros [Hhd Hrest]%andb_true_iff. destruct i as [|i]; simpl.
  - intros [= ->] [= ->]. exact Hhd.
  - apply IH, Hrest.
Qed.

Lemma forallb2_impl {A B} (f f' : A → B → bool) xs ys :
  Forall (λ x, ∀ y, f x y = true → f' x y = true) xs →
  forallb2 f xs ys = true → forallb2 f' xs ys = true.
Proof.
  intros Hall. revert ys.
  induction Hall as [|x xs Hx _ IH]; intros [|y ys]; simpl; try discriminate.
  - reflexivity.
  - intros [Hhd Hrest]%andb_true_iff. rewrite (Hx _ Hhd), (IH _ Hrest). reflexivity.
Qed.

(** An object that represents a specification still does after the store
    has grown. *)
Lemma represents_grow h ext s :
  ∀ l, represents h s l = true → represents (h ++ ext) s l = true.
Proof.
  induction s as [c|z|ss IH|ss IH|ss IH] using Specification_children_ind;
    intros l; simpl; destruct (h !! l) as [o|] eqn:Hl; try discriminate;
    rewrite (lookup_app_l_Some _ _ _ _ Hl); destruct o; try discriminate;
    try (intros Hrep; exact Hrep); apply forallb2_impl; exact IH.
Qed.

Lemma bind_run {A B} (c : M A) (k : A → M B) h :
  bind c k h = match c h with Some (a, h') => k a h' | None => None end.
Proof. reflexivity. Qed.

Lemma deref_middle H o junk :
  deref (length H) (H ++ o :: junk) = Some (o, H ++ o :: junk).
Proof. unfold deref. rewrite list_lookup_middle by reflexivity. reflexivity. Qed.

Lemma deref_old H ext l o :
  H !! l = Some o → deref l (H ++ ext) = Some (o, H ++ ext).
Proof. intros Hl. unfold deref. rewrite (lookup_app_l_Some _ _ _ _ Hl). reflexivity. Qed.

Lemma store_middle H o o' junk :
  store (length H) o' (H ++ o :: junk) = Some ((), H ++ o' :: junk).
Proof.
  unfold store. rewrite insert_app_r_alt by lia.
  rewrite Nat.sub_diag. reflexivity.
Qed.

(** The loops of [any] and [all] over a [map] object at the address
    [length H], whose elements are calls on objects of [H]. *)
Section map_loops.

Variables (call : loc → Product → M bool) (item : Product).
Variables (H : heap) (ss : list Specification) (ls : list loc).

Hypothesis Hrep : forallb2 (represents H) ss ls = true.

Hypothesis Hcall :
  Forall (λ s, ∀ l H', represents H' s l = true →
            ∃ junk, call l item H' = Some (is_satisfied s item, H' ++ junk)) ss.

Lemma map_next_end pos junk :
  length ls ≤ pos →
  map_next call (length H) (H ++ OMap item ls pos :: junk)
  = Some (None, H ++ OMap item ls pos :: junk).
Proof.
  intros Hpos. unfold map_next. rewrite bind_run, deref_middle.
  rewrite (lookup_ge_None_2 _ _ Hpos). reflexivity.
Qed.

Lemma map_next_step pos junk s :
  ss !! pos = Some s →
  ∃ junk', map_next call (length H) (H ++ OMap item ls pos :: junk)
           = Some (Some (is_satisfied s item), H ++ OMap item ls (S pos) :: junk').
Proof.
  intros Hs.
  destruct (lookup_lt_is_Some_2 ls pos) as [child Hchild].
  { rewrite <- (forallb2_length _ _ _ Hrep). eapply lookup_lt_Some, Hs. }
  pose proof (forallb2_lookup _ _ _ _ _ _ Hrep Hs Hchild) as Hr.
  pose proof (proj1 (Forall_lookup _ _) Hcall _ _ Hs) as Hc.
  destruct (Hc child (H ++ OMap item ls (S pos) :: junk)) as [junk' Hrun].
  { apply represents_grow, Hr. }
  exists (junk ++ junk').
  unfold map_next. rewrite bind_run, deref_middle, Hchild.
  rewrite bind_run, store_middle, bind_run, Hrun.
  unfold ret. rewrite <- app_assoc. reflexivity.
Qed.

Lemma any_loop_spec k :
  ∀ pos junk, length ls - pos < k →
  ∃ pos' junk',
    any_loop call (length H) k (H ++ OMap item ls pos :: junk)
    = Some ((py_any (py_map (λ s, is_satisfied s item) (drop pos ss))).1,
            H ++ OMap item ls pos' :: junk')
    ∧ (py_any (py_map (λ s, is_satisfied s item) (drop pos ss))).2
      = py_map (λ s, is_satisfied s item) (drop pos' ss).
Proof.
  pose proof (forallb2_length _ _ _ Hrep) as Hlen.
  induction k as [|k IH]; intros pos junk Hk; [lia|].
  simpl. rewrite bind_run.
  destruct (ss !! pos) as [s|] eqn:Hs.
  - destruct (map_next_step pos junk s Hs) as [junk1 ->].
    rewrite (drop_S _ _ _ Hs). simpl.
    destruct (is_satisfied s item) eqn:Hv; simpl.
    + exists (S pos), junk1. split; reflexivity.
    + apply IH. apply lookup_lt_Some in Hs. lia.
  - apply lookup_ge_None_1 in Hs.
    rewrite map_next_end by lia. rewrite (drop_ge ss pos) by lia.
    exists pos, junk. split; [reflexivity|].
    rewrite (drop_ge ss pos) by lia. reflexivity.
Qed.

Lemma all_loop_spec k :
  ∀ pos junk, length ls - pos < k →
  ∃ pos' junk',
    all_loop call (length H) k (H ++ OMap item ls pos :: junk)
    = Some ((py_all (py_map (λ s, is_satisfied s item) (drop pos ss))).1,
            H ++ OMap item ls pos' :: junk').
Proof.
  pose proof (forallb2_length _ _ _ Hrep) as Hlen.
  induction k as [|k IH]; intros pos junk Hk; [lia|].
  simpl. rewrite bind_run.
  destruct (ss !! pos) as [s|] eqn:Hs.
  - destruct (map_next_step pos junk s Hs) as [junk1 ->].
    rewrite (drop_S _ _ _ Hs). simpl.
    destruct (is_satisfied s item) eqn:Hv; simpl.
    + apply IH. apply lookup_lt_Some in Hs. lia.
    + exists (S pos), junk1. reflexivity.
  - apply lookup_ge_None_1 in Hs.
    rewrite map_next_end by lia. rewrite (drop_ge ss pos) by lia.
    exists pos, junk. reflexivity.
Qed.

Lemma map_remaining_run pos junk :
  map_remaining (length H) (H ++ OMap item ls pos :: junk)
  = Some (length ls - pos, H ++ OMap item ls pos :: junk).
Proof. unfold map_remaining. rewrite bind_run, deref_middle. reflexivity. Qed.

Lemma obj_any_spec pos junk :
  ∃ pos' junk',
    obj_any call (length H) (H ++ OMap item ls pos :: junk)
    = Some ((py_any (py_map (λ s, is_satisfied s item) (drop pos ss))).1,
            H ++ OMap item ls pos' :: junk')
    ∧ (py_any (py_map (λ s, is_satisfied s item) (drop pos ss))).2
      = py_map (λ s, is_satisfied s item) (drop pos' ss).
Proof.
  unfold obj_any. rewrite bind_run, map_remaining_run.
  apply any_loop_spec. lia.
Qed.

Lemma obj_all_spec pos junk :
  ∃ pos' junk',
    obj_all call (length H) (H ++ OMap item ls pos :: junk)
    = Some ((py_all (py_map (λ s, is_satisfied s item) (drop pos ss))).1,
            H ++ OMap item ls pos' :: junk').
Proof.
  unfold obj_all. rewrite bind_run, map_remaining_run.
  apply all_loop_spec. lia.
Qed.

End map_loops.

Lemma child_height ss s :
  s ∈ ss → height s ≤ foldr (λ c acc, height c `max` acc) 0 ss.
Proof.
  induction 1 as [s ss|s s' ss _ IH]; simpl; lia.
Qed.

Lemma children_calls item fuel ss :
  Forall (λ s, ∀ fuel l H, height s < fuel → represents H s l = true →
            ∃ junk, obj_is_satisfied fuel l item H
                    = Some (is_satisfied s item, H ++ junk)) ss →
  foldr (λ c acc, height c `max` acc) 0 ss < fuel →
  Forall (λ s, ∀ l H, represents H s l = true →
            ∃ junk, obj_is_satisfied fuel l item H
                    = Some (is_satisfied s item, H ++ junk)) ss.
Proof.
  intros IH Hfuel. apply Forall_forall. intros s Hin l H Hr.
  apply (proj1 (Forall_forall _ _) IH s Hin); [|exact Hr].
  pose proof (child_height _ _ Hin). lia.
Qed.

(** Evaluating an object that represents [s] returns what [is_satisfied s]
    computes, for every bound above the height of [s], and leaves every
    object of the store as it was: the store only grows, by the [map]
    objects of the call. *)
Lemma obj_is_satisfied_refines item s :
  ∀ fuel l H, height s < fuel → represents H s l = true →
  ∃ junk, obj_is_satisfied fuel l item H = Some (is_satisfied s item, H ++ junk).
Proof.
  induction s as [c|z|ss IH|ss IH|ss IH] using Specification_children_ind;
    intros [|fuel] l H Hfuel Hrep; try (simpl in Hfuel; lia);
    simpl in Hrep; destruct (H !! l) as [o|] eqn:Hl; try discriminate;
    destruct o; try discriminate;
    cbn [obj_is_satisfied]; rewrite bind_run; unfold deref; rewrite Hl.
  - apply bool_decide_eq_true in Hrep as ->.
    exists []. rewrite app_nil_r. reflexivity.
  - apply bool_decide_eq_true in Hrep as ->.
    exists []. rewrite app_nil_r. reflexivity.
  - pose proof (children_calls item fuel ss IH ltac:(simpl in Hfuel; lia)) as Hcall.
    rewrite bind_run. unfold alloc.
    destruct (obj_all_spec _ item H ss _specs Hrep Hcall 0 []) as (pos & junk & ->).
    exists (OMap item _specs pos :: junk). reflexivity.
  - pose proof (children_calls item fuel ss IH ltac:(simpl in Hfuel; lia)) as Hcall.
    rewrite bind_run. unfold alloc.
    destruct (obj_any_spec _ item H ss _specs Hrep Hcall 0 []) as (pos & junk & -> & _).
    exists (OMap item _specs pos :: junk). reflexivity.
  - pose proof (children_calls item fuel ss IH ltac:(simpl in Hfuel; lia)) as Hcall.
    rewrite bind_run. unfold alloc. rewrite bind_run.
    destruct (obj_any_spec _ item H ss _specs Hrep Hcall 0 [])
      as (pos & junk & -> & Hrest).
    change (drop 0 ss) with ss in *. cbn [is_satisfied].
    destruct (py_any (py_map (λ spec, is_satisfied spec item) ss))
      as [found rest]. simpl in Hrest. subst rest. simpl.
    destruct found.
    + rewrite bind_run.
      destruct (obj_any_spec _ item H ss _specs Hrep Hcall pos junk)
        as (pos' & junk' & -> & _).
      exists (OMap item _specs pos' :: junk'). reflexivity.
    + exists (OMap item _specs pos :: junk). reflexivity.
Qed.

(** A finished generator stays finished: [next] is [StopIteration] and
    [list] is empty, in any store. *)
Lemma gen_next_finished fuel h g :
  h !! g = Some OFinishedGenerator → gen_next fuel g h = Some (None, h).
Proof.
  intros Hg. unfold gen_next, gen_remaining. rewrite !bind_run.
  unfold deref at 1. rewrite Hg. cbn [gen_resume ret]. rewrite bind_run.
  unfold deref. rewrite Hg. reflexivity.
Qed.

Lemma py_list_finished fuel h g :
  h !! g = Some OFinishedGenerator → py_list fuel g h = Some ([], h).
Proof.
  intros Hg. unfold py_list, gen_remaining. rewrite !bind_run.
  unfold deref at 1. rewrite Hg. cbn [list_loop ret]. rewrite bind_run.
  rewrite (gen_next_finished _ _ _ Hg). reflexivity.
Qed.

(** The generator of [filter(items, spec)] at the address [length H], over
    a list and a specification object of [H].  Running it changes the
    generator and adds objects after everything that is in the store, and
    nothing else. *)
Section generator.

Variables (fuel : nat) (H : heap) (items l : loc).
Variables (xs : list Product) (s : Specification).

Hypothesis Hitems : H !! items = Some (OList xs).
Hypothesis Hrep : represents H s l = true.
Hypothesis Hfuel : height s < fuel.

Lemma gen_resume_spec k :
  ∀ pos junk, length xs - pos < k →
  ∃ (g' : obj) junk1,
    gen_resume fuel (length H) k (H ++ OGenerator items l pos :: junk)
    = Some (head (List.filter (is_satisfied s) (drop pos xs)),
            H ++ g' :: (junk ++ junk1))
    ∧ match List.filter (is_satisfied s) (drop pos xs) with
      | [] => g' = OFinishedGenerator
      | _ :: rest =>
          ∃ pos', g' = OGenerator items l pos'
                  ∧ List.filter (is_satisfied s) (drop pos' xs) = rest
      end.
Proof.
  induction k as [|k IH]; intros pos junk Hk; [lia|].
  cbn [gen_resume]. rewrite bind_run, deref_middle, bind_run.
  rewrite (deref_old _ _ _ _ Hitems).
  destruct (xs !! pos) as [item|] eqn:Hpos.
  - rewrite bind_run, store_middle, bind_run.
    destruct (obj_is_satisfied_refines item s fuel l
                (H ++ OGenerator items l (S pos) :: junk) Hfuel) as [junk1 ->].
    { apply represents_grow, Hrep. }
    rewrite <- app_assoc, <- app_comm_cons.
    rewrite (drop_S _ _ _ Hpos). simpl.
    destruct (is_satisfied s item); simpl.
    + exists (OGenerator items l (S pos)), junk1.
      split; [reflexivity|]. exists (S pos). split; reflexivity.
    + destruct (IH (S pos) (junk ++ junk1)) as (g' & junk2 & -> & Hg').
      { apply lookup_lt_Some in Hpos. lia. }
      exists g', (junk1 ++ junk2). rewrite app_assoc.
      split; [reflexivity | exact Hg'].
  - apply lookup_ge_None_1 in Hpos. rewrite (drop_ge xs pos) by lia.
    rewrite bind_run, store_middle.
    exists OFinishedGenerator, []. rewrite app_nil_r. split; reflexivity.
Qed.

Lemma gen_remaining_run pos junk :
  gen_remaining (length H) (H ++ OGenerator items l pos :: junk)
  = Some (length xs - pos, H ++ OGenerator items l pos :: junk).
Proof.
  unfold gen_remaining. rewrite bind_run, deref_middle, bind_run.
  rewrite (deref_old _ _ _ _ Hitems). reflexivity.
Qed.

Lemma gen_next_spec pos junk :
  ∃ (g' : obj) junk1,
    gen_next fuel (length H) (H ++ OGenerator items l pos :: junk)
    = Some (head (List.filter (is_satisfied s) (drop pos xs)),
            H ++ g' :: (junk ++ junk1))
    ∧ match List.filter (is_satisfied s) (drop pos xs) with
      | [] => g' = OFinishedGenerator
      | _ :: rest =>
          ∃ pos', g' = OGenerator items l pos'
                  ∧ List.filter (is_satisfied s) (drop pos' xs) = rest
      end.
Proof.
  unfold gen_next. rewrite bind_run, gen_remaining_run.
  apply gen_resume_spec. lia.
Qed.

(** [list] consumes the generator to its end and leaves it finished. *)
Lemma list_loop_spec k :
  ∀ pos junk, length (List.filter (is_satisfied s) (drop pos xs)) < k →
  ∃ junk1,
    list_loop fuel (length H) k (H ++ OGenerator items l pos :: junk)
    = Some (List.filter (is_satisfied s) (drop pos xs),
            H ++ OFinishedGenerator :: (junk ++ junk1)).
Proof.
  induction k as [|k IH]; intros pos junk Hk; [lia|].
  cbn [list_loop]. rewrite bind_run.
  destruct (gen_next_spec pos junk) as (g' & junk1 & -> & Hg').
  destruct (List.filter (is_satisfied s) (drop pos xs)) as [|x rest]; simpl in *.
  - subst g'. exists junk1. reflexivity.
  - destruct Hg' as (pos' & -> & Hrest). rewrite bind_run.
    destruct (IH pos' (junk ++ junk1)) as (junk2 & ->).
    { rewrite Hrest. lia. }
    exists (junk1 ++ junk2). rewrite Hrest, app_assoc. reflexivity.
Qed.

Lemma py_list_spec pos junk :
  ∃ junk1,
    py_list fuel (length H) (H ++ OGenerator items l pos :: junk)
    = Some (List.filter (is_satisfied s) (drop pos xs),
            H ++ OFinishedGenerator :: (junk ++ junk1)).
Proof.
  unfold py_list. rewrite bind_run, gen_remaining_run.
  apply list_loop_spec.
  pose proof (List.filter_length_le (is_satisfied s) (drop pos xs)) as Hle.
  rewrite length_drop in Hle. lia.
Qed.

(** Materialising the generator gives the yields of the value model, and
    the store only grows. *)
Lemma filtered_refines :
  ∃ junk, filtered fuel items l H = Some (BetterFilter_filter xs s, H ++ junk).
Proof.
  unfold filtered, obj_filter. rewrite bind_run. unfold alloc.
  destruct (py_list_spec 0 []) as (junk & ->).
  exists (OFinishedGenerator :: [] ++ junk).
  unfold BetterFilter_filter. rewrite yields_filter. reflexivity.
Qed.

End generator.

End object_store.

(** * The specification combinators *)

Section combinators.

Implicit Types (item : Product) (items : list Product).
Implicit Types (s a b c : Specification) (specs : list Specification).

Lemma filter_nil_iff {A} (f : A → bool) (xs : list A) :
  length (List.filter f xs) = 0 ↔ Forall (λ x, f x = false) xs.
Proof.
  induction xs as [|x xs IH]; simpl.
  - split; [constructor | reflexivity].
  - destruct (f x) eqn:Hx; simpl.
    + split; [discriminate | intros Hall; inversion Hall; congruence].
    + rewrite IH. split; [constructor; assumption | intros Hall; inversion Hall; assumption].
Qed.

(** A filter keeps exactly one element when the list splits around one
    element that passes, with none passing before it or after it. *)
Lemma filter_one_iff {A} (f : A → bool) (xs : list A) :
  length (List.filter f xs) = 1 ↔
  ∃ pre x post, xs = pre ++ x :: post ∧ f x = true
                ∧ Forall (λ y, f y = false) (pre ++ post).
Proof.
  split.
  - induction xs as [|x xs IH]; simpl; [discriminate|].
    destruct (f x) eqn:Hx; simpl.
    + intros [= Hlen]. exists [], x, xs. simpl.
      split_and!; [reflexivity | exact Hx | apply filter_nil_iff, Hlen].
    + intros Hlen. destruct (IH Hlen) as (pre & y & post & -> & Hy & Hrest).
      exists (x :: pre), y, post. simpl.
      split_and!; [reflexivity | exact Hy | constructor; assumption].
  - intros (pre & x & post & -> & Hx & Hrest).
    apply Forall_app in Hrest as [Hpre Hpost].
    apply filter_nil_iff in Hpre, Hpost.
    rewrite List.filter_app, length_app. simpl. rewrite Hx. simpl. lia.
Qed.

(** C1: [XorSpecification.is_satisfied] is true if and only if exactly one
    child is satisfied by the item, for any number of children: the count of
    satisfied children is one, that is, the children split around one
    satisfied child with no other satisfied child before or after it.  With
    no children it is false. *)
Theorem xor_exactly_one specs item :
  (is_satisfied (XorSpecification specs) item = true
   ↔ count_satisfied specs item = 1)
  ∧ (is_satisfied (XorSpecification specs) item = true
     ↔ ∃ pre s post,
         specs = pre ++ s :: post ∧ is_satisfied s item = true
         ∧ Forall (λ other, is_satisfied other item = false) (pre ++ post))
  ∧ is_satisfied (XorSpecification []) item = false.
Proof.
  rewrite is_satisfied_xor, Nat.eqb_eq. split_and!; [reflexivity | | reflexivity].
  apply (filter_one_iff (λ spec, is_satisfied spec item)).
Qed.

(** C2 fails as stated: [any(satisfied) and not any(satisfied)] is true on
    the two-child XOR of the demonstration, since the apple is green and not
    large. *)
Lemma xor_not_always_false :
  ¬ (∀ specs item, is_satisfied (XorSpecification specs) item = false).
Proof.
  intros Hfalse.
  specialize (Hfalse [SizeSpecification LARGE; ColorSpecification GREEN] apple).
  vm_compute in Hfalse. discriminate Hfalse.
Qed.

(** C2, as amended: [any(satisfied) and not any(satisfied)] is false exactly
    when the number of satisfied children is not one.  Both calls of [any]
    consume the same iterator, so the second sees only the children after
    the first satisfied one. *)
Theorem xor_false_iff specs item :
  is_satisfied (XorSpecification specs) item = false
  ↔ count_satisfied specs item ≠ 1.
Proof.
  rewrite is_satisfied_xor. apply Nat.eqb_neq.
Qed.

Lemma count_occ_filter (f : Product → bool) items item :
  count_occ Product_eq_dec (List.filter f items) item
  = if f item then count_occ Product_eq_dec items item else 0.
Proof.
  induction items as [|x items IH]; simpl.
  - destruct (f item); reflexivity.
  - destruct (f x) eqn:Hx; simpl; destruct (Product_eq_dec x item) as [->|Hne].
    + rewrite IH, Hx. reflexivity.
    + exact IH.
    + rewrite IH, Hx. reflexivity.
    + exact IH.
Qed.

(** C3: [BetterFilter.filter(items, spec)] yields exactly the subsequence of
    [items] whose elements satisfy [spec]: the yields are the satisfying
    items in input order, they are a subsequence of the input, and every
    product occurs among them as often as in the input when it satisfies
    [spec] and not at all when it does not. *)
Theorem filter_is_subsequence items spec :
  BetterFilter_filter items spec = List.filter (is_satisfied spec) items
  ∧ sublist (BetterFilter_filter items spec) items
  ∧ ∀ item,
      count_occ Product_eq_dec (BetterFilter_filter items spec) item
      = if is_satisfied spec item then count_occ Product_eq_dec items item else 0.
Proof.
  unfold BetterFilter_filter. rewrite yields_filter.
  split_and!; [reflexivity | apply filter_sublist | apply count_occ_filter].
Qed.

(** C4: [AndSpecification.is_satisfied] is true if and only if every child
    is satisfied; with no children it is true, and filtering by it yields
    every item. *)
Theorem and_every_child specs item items :
  (is_satisfied (AndSpecification specs) item = true
   ↔ Forall (λ spec, is_satisfied spec item = true) specs)
  ∧ is_satisfied (AndSpecification []) item = true
  ∧ BetterFilter_filter items (AndSpecification []) = items.
Proof.
  split_and!.
  - rewrite is_satisfied_and, forallb_forall, Forall_forall.
    setoid_rewrite list_elem_of_In. reflexivity.
  - reflexivity.
  - unfold BetterFilter_filter. rewrite yields_filter.
    induction items as [|x items IH]; simpl; [reflexivity | f_equal; exact IH].
Qed.

(** C5: [OrSpecification.is_satisfied] is true if and only if some child is
    satisfied; with no children it is false, and filtering by it yields
    nothing. *)
Theorem or_some_child specs item items :
  (is_satisfied (OrSpecification specs) item = true
   ↔ Exists (λ spec, is_satisfied spec item = true) specs)
  ∧ is_satisfied (OrSpecification []) item = false
  ∧ BetterFilter_filter items (OrSpecification []) = [].
Proof.
  split_and!.
  - rewrite is_satisfied_or, existsb_exists, Exists_exists.
    setoid_rewrite list_elem_of_In. reflexivity.
  - reflexivity.
  - unfold BetterFilter_filter. rewrite yields_filter.
    induction items as [|x items IH]; simpl; [reflexivity | exact IH].
Qed.

(** C7: AND, OR and XOR of two children do not depend on the order of the
    children, and AND and OR give the same truth value however three
    children are grouped. *)
Theorem two_children_commute a b c item :
  is_satisfied (AndSpecification [a; b]) item
  = is_satisfied (AndSpecification [b; a]) item
  ∧ is_satisfied (OrSpecification [a; b]) item
    = is_satisfied (OrSpecification [b; a]) item
  ∧ is_satisfied (XorSpecification [a; b]) item
    = is_satisfied (XorSpecification [b; a]) item
  ∧ is_satisfied (AndSpecification [AndSpecification [a; b]; c]) item
    = is_satisfied (AndSpecification [a; AndSpecification [b; c]]) item
  ∧ is_satisfied (OrSpecification [OrSpecification [a; b]; c]) item
    = is_satisfied (OrSpecification [a; OrSpecification [b; c]]) item.
Proof.
  cbn [is_satisfied py_map fmap list_fmap py_all py_any fst].
  destruct (is_satisfied a item), (is_satisfied b item), (is_satisfied c item);
    repeat split; reflexivity.
Qed.

(** C9: the old [ProductFilter] methods yield the same sequences as
    [BetterFilter.filter] with the matching specification; for size and
    color together, the AND of the two leaves in either order. *)
Theorem old_filters_agree items (c : Color) (z : Size) :
  filter_by_color items c = BetterFilter_filter items (ColorSpecification c)
  ∧ filter_by_size items z = BetterFilter_filter items (SizeSpecification z)
  ∧ filter_by_size_and_color items z c
    = BetterFilter_filter items
        (AndSpecification [SizeSpecification z; ColorSpecification c])
  ∧ filter_by_size_and_color items z c
    = BetterFilter_filter items
        (spec_and (ColorSpecification c) (SizeSpecification z)).
Proof.
  split_and!; unfold filter_by_color, filter_by_size, filter_by_size_and_color,
    BetterFilter_filter, spec_and; apply yields_ext; intros item; simpl;
    try reflexivity;
    destruct (Color_is (color item) c), (Size_is (size item) z); reflexivity.
Qed.

End combinators.

(** * Operators, repeated evaluation and the journal *)

Section frame.

Implicit Types (h : heap) (l a b : loc) (item : Product).
Implicit Types (s sa sb : Specification).

Lemma alloc_fresh h o :
  h !! length h = None
  ∧ (h ++ [o]) !! length h = Some o
  ∧ ∀ l, l ≠ length h → (h ++ [o]) !! l = h !! l.
Proof.
  split_and!.
  - apply lookup_ge_None_2. lia.
  - apply list_lookup_middle. reflexivity.
  - intros l Hl. destruct (decide (l < length h)) as [Hlt|Hge].
    + apply lookup_app_l, Hlt.
    + rewrite !lookup_ge_None_2; [reflexivity | lia | rewrite length_app; simpl; lia].
Qed.

Lemma represents_pair h sa sb a b :
  represents h sa a = true → represents h sb b = true →
  forallb2 (represents h) [sa; sb] [a; b] = true.
Proof. intros Ha Hb. simpl. rewrite Ha, Hb. reflexivity. Qed.

(** C6: each of [a & b], [a | b] and [a ^ b] returns a new object, a
    composite whose children are the two operands in that order, and changes
    no object of the store; the operands represent the same specifications
    as before, and the result represents the composite of the two. *)
Theorem operators_build_new_composite h a b sa sb :
  represents h sa a = true → represents h sb b = true →
  (∃ r h', obj_and a b h = Some (r, h')
     ∧ h !! r = None ∧ h' !! r = Some (OAndSpecification [a; b])
     ∧ (∀ l, l ≠ r → h' !! l = h !! l)
     ∧ represents h' sa a = true ∧ represents h' sb b = true
     ∧ represents h' (spec_and sa sb) r = true)
  ∧ (∃ r h', obj_or a b h = Some (r, h')
     ∧ h !! r = None ∧ h' !! r = Some (OOrSpecification [a; b])
     ∧ (∀ l, l ≠ r → h' !! l = h !! l)
     ∧ represents h' sa a = true ∧ represents h' sb b = true
     ∧ represents h' (spec_or sa sb) r = true)
  ∧ (∃ r h', obj_xor a b h = Some (r, h')
     ∧ h !! r = None ∧ h' !! r = Some (OXorSpecification [a; b])
     ∧ (∀ l, l ≠ r → h' !! l = h !! l)
     ∧ represents h' sa a = true ∧ represents h' sb b = true
     ∧ represents h' (spec_xor sa sb) r = true).
Proof.
  intros Ha Hb.
  split_and!; eexists (length h), _; (split; [reflexivity|]);
    match goal with
    | |- context [h ++ [?o]] => destruct (alloc_fresh h o) as (Hnew & Hat & Hold)
    end;
    (split_and!;
     [ exact Hnew | exact Hat | exact Hold
     | apply represents_grow, Ha | apply represents_grow, Hb | ]);
    unfold spec_and, spec_or, spec_xor; cbn [represents]; rewrite Hat;
    apply represents_pair; apply represents_grow; assumption.
Qed.

Lemma operators_build_new_composite_witness :
  represents demo_store (SizeSpecification LARGE) 0 = true
  ∧ represents demo_store (ColorSpecification GREEN) 1 = true
  ∧ ∃ r h', obj_xor 0 1 demo_store = Some (r, h')
     ∧ demo_store !! r = None ∧ h' !! r = Some (OXorSpecification [0; 1])
     ∧ (∀ l, l ≠ r → h' !! l = demo_store !! l)
     ∧ represents h' (SizeSpecification LARGE) 0 = true
     ∧ represents h' (ColorSpecification GREEN) 1 = true
     ∧ represents h'
         (spec_xor (SizeSpecification LARGE) (ColorSpecification GREEN)) r = true.
Proof.
  split; [reflexivity|]. split; [reflexivity|].
  apply (operators_build_new_composite demo_store 0 1
           (SizeSpecification LARGE) (ColorSpecification GREEN));
    reflexivity.
Defined.

(** C8: evaluating a specification twice on the same item gives the same
    boolean, the value of [is_satisfied]; materialising [filter(items,
    spec)] twice gives the same sequence, the yields of the value model.
    Neither changes an object that was in the store: the list [items] is
    the same afterwards, and each call works on [map] objects and a
    generator of its own. *)
Theorem repeated_calls_agree fuel h l s item items xs :
  represents h s l = true → height s < fuel → h !! items = Some (OList xs) →
  (∃ h1 h2,
     obj_is_satisfied fuel l item h = Some (is_satisfied s item, h1)
     ∧ obj_is_satisfied fuel l item h1 = Some (is_satisfied s item, h2)
     ∧ h `prefix_of` h1 ∧ h1 `prefix_of` h2)
  ∧ (∃ h1 h2,
       filtered fuel items l h = Some (BetterFilter_filter xs s, h1)
       ∧ filtered fuel items l h1 = Some (BetterFilter_filter xs s, h2)
       ∧ h `prefix_of` h1 ∧ h1 `prefix_of` h2
       ∧ h1 !! items = Some (OList xs) ∧ h2 !! items = Some (OList xs)).
Proof.
  intros Hrep Hfuel Hitems. split.
  - destruct (obj_is_satisfied_refines item s fuel l h Hfuel Hrep) as [junk1 Hrun1].
    destruct (obj_is_satisfied_refines item s fuel l (h ++ junk1) Hfuel)
      as [junk2 Hrun2]; [apply represents_grow, Hrep|].
    exists (h ++ junk1), ((h ++ junk1) ++ junk2).
    split_and!; [exact Hrun1 | exact Hrun2 | eexists; reflexivity | eexists; reflexivity].
  - destruct (filtered_refines fuel h items l xs s Hitems Hrep Hfuel) as [junk1 Hrun1].
    destruct (filtered_refines fuel (h ++ junk1) items l xs s) as [junk2 Hrun2];
      [apply lookup_app_l_Some, Hitems | apply represents_grow, Hrep | exact Hfuel |].
    exists (h ++ junk1), ((h ++ junk1) ++ junk2).
    split_and!;
      [ exact Hrun1 | exact Hrun2 | eexists; reflexivity | eexists; reflexivity
      | apply lookup_app_l_Some, Hitems
      | do 2 apply lookup_app_l_Some; exact Hitems ].
Qed.

Lemma repeated_calls_agree_witness :
  let large_xor_green := XorSpecification [SizeSpecification LARGE; ColorSpecification GREEN] in
  let h := demo_store ++ [OXorSpecification [0; 1]] in
  represents h large_xor_green 3 = true
  ∧ height large_xor_green < 2
  ∧ h !! 2 = Some (OList products)
  ∧ (∃ h1 h2,
       obj_is_satisfied 2 3 apple h = Some (is_satisfied large_xor_green apple, h1)
       ∧ obj_is_satisfied 2 3 apple h1 = Some (is_satisfied large_xor_green apple, h2)
       ∧ h `prefix_of` h1 ∧ h1 `prefix_of` h2)
  ∧ (∃ h1 h2,
       filtered 2 2 3 h = Some (BetterFilter_filter products large_xor_green, h1)
       ∧ filtered 2 2 3 h1 = Some (BetterFilter_filter products large_xor_green, h2)
       ∧ h `prefix_of` h1 ∧ h1 `prefix_of` h2
       ∧ h1 !! 2 = Some (OList products) ∧ h2 !! 2 = Some (OList products)).
Proof.
  intros large_xor_green h.
  split; [reflexivity|]. split; [simpl; lia|]. split; [reflexivity|].
  apply (repeated_calls_agree 2 h 3 large_xor_green apple 2 products);
    [reflexivity | simpl; lia | reflexivity].
Defined.

End frame.

Section journal.

Local Open Scope Z_scope.

(** C10: for an entry number [k] between 1 and the number of entries,
    [remove_entry(k)] leaves the entries before the [k]-th followed by the
    entries after it; and on every journal, the empty one too, removing
    entry [n + 1] after [add_entry] on a journal of [n] entries gives back
    the journal. *)
Theorem remove_entry_one_based (j : Journal) (k : Z) :
  (1 ≤ k ≤ Z.of_nat (length (entries j)) →
   remove_entry k j
   = Some (mkJournal (take (Z.to_nat (k - 1)) (entries j)
                      ++ drop (Z.to_nat k) (entries j))))
  ∧ ∀ text,
      remove_entry (Z.of_nat (length (entries j)) + 1) (add_entry text j) = Some j.
Proof.
  split.
  - intros Hk. unfold remove_entry.
    destruct (Z.ltb_spec (k - 1) 0) as [?|_]; [lia|].
    destruct (Z.ltb_spec (k - 1) 0) as [?|_]; [lia|].
    destruct (Z.leb_spec (Z.of_nat (length (entries j))) (k - 1)) as [?|_]; [lia|].
    simpl. rewrite delete_take_drop.
    replace (S (Z.to_nat (k - 1))) with (Z.to_nat k) by lia. reflexivity.
  - intros text. destruct j as [es]. unfold remove_entry, add_entry. simpl.
    rewrite length_app. simpl.
    replace (Z.of_nat (length es) + 1 - 1) with (Z.of_nat (length es)) by lia.
    destruct (Z.ltb_spec (Z.of_nat (length es)) 0) as [?|_]; [lia|].
    destruct (Z.ltb_spec (Z.of_nat (length es)) 0) as [?|_]; [lia|].
    destruct (Z.leb_spec (Z.of_nat (length es + 1)%nat) (Z.of_nat (length es)))
      as [?|_]; [lia|].
    simpl. rewrite Nat2Z.id, delete_middle, app_nil_r. reflexivity.
Qed.

Lemma remove_entry_one_based_witness :
  let j := mkJournal ["I cried today."; "I ate a bug."]%string in
  1 ≤ 1 ≤ Z.of_nat (length (entries j))
  ∧ remove_entry 1 j = Some (mkJournal ["I ate a bug."]%string)
  ∧ (∀ text, remove_entry 3 (add_entry text j) = Some j)
  ∧ (∀ text, remove_entry 1 (add_entry text Journal_init) = Some Journal_init).
Proof.
  intros j.
  assert (Hk : 1 ≤ 1 ≤ Z.of_nat (length (entries j))) by (simpl; lia).
  split; [exact Hk|].
  split; [exact (proj1 (remove_entry_one_based j 1) Hk)|].
  split; [exact (proj2 (remove_entry_one_based j 1))|].
  exact (proj2 (remove_entry_one_based Journal_init 0)).
Defined.

End journal.

(** * The demonstration and the tests, replayed *)

Section demonstration.

Example demo_large_and_green :
  BetterFilter_filter products (spec_and large green) = [tree].
Proof. reflexivity. Qed.

Example demo_large_or_green :
  BetterFilter_filter products (spec_or large green) = [apple; tree; house].
Proof. reflexivity. Qed.

Example demo_large_xor_green :
  BetterFilter_filter products (spec_xor large green) = [apple; house].
Proof. reflexivity. Qed.

Example demo_large_xor_blue :
  BetterFilter_filter products (spec_xor large blue) = [tree].
Proof. reflexivity. Qed.

(** Three children: the house is large and blue, the apple only green. *)
Example xor_three_children :
  BetterFilter_filter products (XorSpecification [large; green; blue]) = [apple].
Proof. reflexivity. Qed.

(** The truth table of [test_xor_specification_is_satisfied_correct_response],
    with the empty AND and the empty OR as the always true and the always
    false specification. *)
Example test_xor_truth_table :
  let always := AndSpecification [] in
  let never := OrSpecification [] in
  is_satisfied (spec_xor always never) apple = true
  ∧ is_satisfied (spec_xor always always) house = false
  ∧ is_satisfied (spec_xor never never) tree = false.
Proof. repeat split. Qed.

(** The same run on the object store: [large ^ green] is allocated at
    address 3, and filtering twice gives the apple and the house twice. *)
Example demo_on_the_store :
  (let! x := obj_xor 0 1 in
   let! first := filtered 2 2 x in
   let! second := filtered 2 2 x in
   ret (x, first, second)) demo_store
  = Some ((3, [apple; house], [apple; house]),
          demo_store
          ++ [OXorSpecification [0; 1];
              OFinishedGenerator;
              OMap apple [0; 1] 2; OMap tree [0; 1] 2; OMap house [0; 1] 2;
              OFinishedGenerator;
              OMap apple [0; 1] 2; OMap tree [0; 1] 2; OMap house [0; 1] 2]).
Proof. reflexivity. Qed.

(** [test_journal_remove_entry_removes_entry] passes entry number 0: the
    index is then -1, which counts from the end. *)
Example test_remove_entry_zero :
  remove_entry 0 (add_entry "Hello" Journal_init) = Some Journal_init.
Proof. reflexivity. Qed.

Example remove_entry_out_of_range :
  remove_entry 2 (add_entry "Hello" Journal_init) = None.
Proof. reflexivity. Qed.

End demonstration.

(** * More on the combinators *)

Section combinator_algebra.

Implicit Types (item : Product) (items : list Product).
Implicit Types (s a b c : Specification) (specs : list Specification).

Lemma filter_length_permutation {A} (f : A → bool) (xs ys : list A) :
  xs ≡ₚ ys → length (List.filter f xs) = length (List.filter f ys).
Proof.
  induction 1 as [|x xs ys _ IH|x y xs|xs ys zs _ IH1 _ IH2]; simpl.
  - reflexivity.
  - destruct (f x); simpl; congruence.
  - destruct (f x), (f y); reflexivity.
  - congruence.
Qed.

Lemma forallb_filter_length {A} (f : A → bool) (xs : list A) :
  forallb f xs = (length (List.filter (λ x, negb (f x)) xs) =? 0).
Proof.
  induction xs as [|x xs IH]; simpl; [reflexivity|].
  destruct (f x); simpl; [exact IH | reflexivity].
Qed.

(** X1: the value of a composite does not depend on the order of its children,
    for any number of children. *)
Theorem children_order_irrelevant specs specs' item :
  specs ≡ₚ specs' →
  is_satisfied (AndSpecification specs) item
  = is_satisfied (AndSpecification specs') item
  ∧ is_satisfied (OrSpecification specs) item
    = is_satisfied (OrSpecification specs') item
  ∧ is_satisfied (XorSpecification specs) item
    = is_satisfied (XorSpecification specs') item.
Proof.
  intros Hperm.
  rewrite !is_satisfied_and, !is_satisfied_or, !is_satisfied_xor.
  rewrite !forallb_filter_length, !existsb_filter_length.
  unfold count_satisfied.
  rewrite (filter_length_permutation _ _ _ Hperm).
  rewrite (filter_length_permutation (λ spec, is_satisfied spec item) _ _ Hperm).
  split_and!; reflexivity.
Qed.

Lemma children_order_irrelevant_witness :
  [large; green; blue] ≡ₚ [blue; large; green]
  ∧ is_satisfied (AndSpecification [large; green; blue]) house
    = is_satisfied (AndSpecification [blue; large; green]) house
  ∧ is_satisfied (OrSpecification [large; green; blue]) house
    = is_satisfied (OrSpecification [blue; large; green]) house
  ∧ is_satisfied (XorSpecification [large; green; blue]) house
    = is_satisfied (XorSpecification [blue; large; green]) house.
Proof.
  assert (Hperm : [large; green; blue] ≡ₚ [blue; large; green]).
  { change ([large; green] ++ [blue] ≡ₚ [blue] ++ [large; green]).
    apply Permutation_app_comm. }
  split; [exact Hperm|].
  apply (children_order_irrelevant _ _ house Hperm).
Defined.

(** X2: an AND nested as the first child of an AND can be flattened into its
    parent, and so can an OR in an OR. *)
Theorem nested_and_or_flatten specs specs' item :
  is_satisfied (AndSpecification (AndSpecification specs :: specs')) item
  = is_satisfied (AndSpecification (specs ++ specs')) item
  ∧ is_satisfied (OrSpecification (OrSpecification specs :: specs')) item
    = is_satisfied (OrSpecification (specs ++ specs')) item.
Proof.
  rewrite (is_satisfied_and (_ :: _)), (is_satisfied_and (_ ++ _)).
  rewrite (is_satisfied_or (_ :: _)), (is_satisfied_or (_ ++ _)).
  cbn [forallb existsb]. rewrite forallb_app, existsb_app.
  rewrite is_satisfied_and, is_satisfied_or. split; reflexivity.
Qed.

(** X3: the operator [^] is the exclusive or of its two operands, so nesting it
    gives the parity of the satisfied operands, whichever way it is grouped.
    The XOR of three children is something else: it agrees with the nested
    form except on an item that satisfies all three, where the nested form
    is true and the three-child form is false. *)
Theorem xor_operator_is_parity a b c item :
  is_satisfied (spec_xor a b) item
  = xorb (is_satisfied a item) (is_satisfied b item)
  ∧ is_satisfied (spec_xor (spec_xor a b) c) item
    = is_satisfied (spec_xor a (spec_xor b c)) item
  ∧ is_satisfied (XorSpecification [a; b; c]) item
    = is_satisfied (spec_xor (spec_xor a b) c) item
      && negb (is_satisfied a item && is_satisfied b item && is_satisfied c item).
Proof.
  unfold spec_xor.
  cbn [is_satisfied py_map fmap list_fmap py_all py_any fst].
  destruct (is_satisfied a item), (is_satisfied b item), (is_satisfied c item);
    repeat split; reflexivity.
Qed.

Lemma filter_filter {A} (f f' : A → bool) (xs : list A) :
  List.filter f' (List.filter f xs) = List.filter (λ x, f x && f' x) xs.
Proof.
  induction xs as [|x xs IH]; simpl; [reflexivity|].
  destruct (f x); simpl; [destruct (f' x)|]; rewrite IH; reflexivity.
Qed.

(** X4: filtering by each of [specs] in turn, the output of one filter being the
    input of the next, yields what one filter by their AND yields. *)
Theorem chained_filters_are_and specs items :
  foldl BetterFilter_filter items specs
  = BetterFilter_filter items (AndSpecification specs).
Proof.
  revert items. induction specs as [|s specs IH]; intros items.
  - unfold BetterFilter_filter. rewrite yields_filter. simpl.
    induction items as [|x items IH]; simpl; [reflexivity | f_equal; exact IH].
  - simpl. rewrite IH. unfold BetterFilter_filter. rewrite !yields_filter.
    rewrite filter_filter. apply List.filter_ext. intros item.
    rewrite !is_satisfied_and. reflexivity.
Qed.

(** X5: filtering distributes over concatenation of the input, filtering a
    result again by the same specification changes nothing, and a result is
    never longer than the input. *)
Theorem filter_app_idempotent items items' spec :
  BetterFilter_filter (items ++ items') spec
  = BetterFilter_filter items spec ++ BetterFilter_filter items' spec
  ∧ BetterFilter_filter (BetterFilter_filter items spec) spec
    = BetterFilter_filter items spec
  ∧ length (BetterFilter_filter items spec) ≤ length items.
Proof.
  unfold BetterFilter_filter. rewrite !yields_filter. split_and!.
  - apply List.filter_app.
  - rewrite filter_filter. apply List.filter_ext. intros item.
    apply Bool.andb_diag.
  - apply List.filter_length_le.
Qed.

Lemma operator_values a b item :
  is_satisfied (spec_and a b) item = is_satisfied a item && is_satisfied b item
  ∧ is_satisfied (spec_or a b) item = is_satisfied a item || is_satisfied b item
  ∧ is_satisfied (spec_xor a b) item
    = xorb (is_satisfied a item) (is_satisfied b item).
Proof.
  unfold spec_and, spec_or, spec_xor.
  cbn [is_satisfied py_map fmap list_fmap py_all py_any fst].
  destruct (is_satisfied a item), (is_satisfied b item); repeat split; reflexivity.
Qed.

Lemma filter_counts_bool {A} (f f' : A → bool) (xs : list A) :
  length (List.filter (λ x, f x || f' x) xs)
  + length (List.filter (λ x, f x && f' x) xs)
  = length (List.filter f xs) + length (List.filter f' xs)
  ∧ length (List.filter (λ x, xorb (f x) (f' x)) xs)
    + length (List.filter (λ x, f x && f' x) xs)
    = length (List.filter (λ x, f x || f' x) xs).
Proof.
  induction xs as [|x xs [IH1 IH2]]; [split; reflexivity|].
  simpl. destruct (f x), (f' x); simpl; lia.
Qed.

(** X6: counting results: the items that satisfy [a | b] and those that satisfy
    [a & b] are together as many as those that satisfy [a] and those that
    satisfy [b]; the items that satisfy [a ^ b] are those that satisfy
    [a | b] less those that satisfy [a & b]. *)
Theorem filter_counts a b items :
  length (BetterFilter_filter items (spec_or a b))
  + length (BetterFilter_filter items (spec_and a b))
  = length (BetterFilter_filter items a) + length (BetterFilter_filter items b)
  ∧ length (BetterFilter_filter items (spec_xor a b))
    + length (BetterFilter_filter items (spec_and a b))
    = length (BetterFilter_filter items (spec_or a b)).
Proof.
  unfold BetterFilter_filter. rewrite !yields_filter.
  rewrite (List.filter_ext (is_satisfied (spec_or a b))
             (λ item, is_satisfied a item || is_satisfied b item))
    by (intros item; apply operator_values).
  rewrite (List.filter_ext (is_satisfied (spec_and a b))
             (λ item, is_satisfied a item && is_satisfied b item))
    by (intros item; apply operator_values).
  rewrite (List.filter_ext (is_satisfied (spec_xor a b))
             (λ item, xorb (is_satisfied a item) (is_satisfied b item)))
    by (intros item; apply operator_values).
  apply filter_counts_bool.
Qed.

End combinator_algebra.

(** * More on generators *)

Lemma obj_print_finished fuel title h g out :
  h !! g = Some OFinishedGenerator →
  obj_print_filtered_products fuel title g out h
  = Some (print_filtered_products title [] out, h).
Proof.
  intros Hg. unfold obj_print_filtered_products, gen_remaining.
  rewrite !bind_run. unfold deref at 1. rewrite Hg.
  cbn [ret]. rewrite bind_run. cbn [print_loop]. rewrite bind_run.
  rewrite (gen_next_finished _ _ _ Hg). reflexivity.
Qed.

(** Appending to the list of a store changes the list and nothing else. *)
Lemma obj_append_run h items xs extra :
  h !! items = Some (OList xs) →
  obj_append items extra h = Some ((), <[items := OList (xs ++ [extra])]> h).
Proof.
  intros Hitems. unfold obj_append. rewrite bind_run.
  unfold deref. rewrite Hitems. reflexivity.
Qed.

Section generator_runs.

Variables (fuel : nat) (H : heap) (items l : loc).
Variables (xs : list Product) (s : Specification).

Hypothesis Hitems : H !! items = Some (OList xs).
Hypothesis Hrep : represents H s l = true.
Hypothesis Hfuel : height s < fuel.

Lemma print_loop_spec title k :
  ∀ pos junk out, length (List.filter (is_satisfied s) (drop pos xs)) < k →
  ∃ junk1,
    print_loop fuel title (length H) k out (H ++ OGenerator items l pos :: junk)
    = Some (foldl (λ out item, print ("- " +:+ name item +:+ " is " +:+ title) out)
                  out (List.filter (is_satisfied s) (drop pos xs)),
            H ++ OFinishedGenerator :: (junk ++ junk1)).
Proof.
  induction k as [|k IH]; intros pos junk out Hk; [lia|].
  cbn [print_loop]. rewrite bind_run.
  destruct (gen_next_spec fuel H items l xs s Hitems Hrep Hfuel pos junk)
    as (g' & junk1 & -> & Hg').
  destruct (List.filter (is_satisfied s) (drop pos xs)) as [|x rest]; simpl in *.
  - subst g'. exists junk1. reflexivity.
  - destruct Hg' as (pos' & -> & Hrest).
    destruct (IH pos' (junk ++ junk1)
                (print ("- " +:+ name x +:+ " is " +:+ title) out))
      as (junk2 & ->).
    { rewrite Hrest. lia. }
    exists (junk1 ++ junk2). rewrite Hrest, app_assoc. reflexivity.
Qed.

Lemma obj_print_spec title pos junk out :
  ∃ junk1,
    obj_print_filtered_products fuel title (length H) out
      (H ++ OGenerator items l pos :: junk)
    = Some (print_filtered_products title
              (List.filter (is_satisfied s) (drop pos xs)) out,
            H ++ OFinishedGenerator :: (junk ++ junk1)).
Proof.
  unfold obj_print_filtered_products.
  rewrite bind_run, (gen_remaining_run H items l xs Hitems), bind_run.
  destruct (print_loop_spec title (S (length xs - pos)) pos junk
              (print (title +:+ " (new):") out)) as (junk1 & ->).
  { pose proof (List.filter_length_le (is_satisfied s) (drop pos xs)) as Hle.
    rewrite length_drop in Hle. lia. }
  exists junk1. reflexivity.
Qed.

End generator_runs.

Section generator_use.

Variables (fuel : nat) (h : heap) (items l : loc).
Variables (xs : list Product) (s : Specification).

Hypothesis Hitems : h !! items = Some (OList xs).
Hypothesis Hrep : represents h s l = true.
Hypothesis Hfuel : height s < fuel.

(** The generator at [length h] is finished in a store that begins with [h]
    and holds it finished, also after an append to the list. *)
Lemma finished_after_append junk extra :
  <[items := OList (xs ++ [extra])]> (h ++ OFinishedGenerator :: junk)
    !! length h = Some OFinishedGenerator.
Proof.
  pose proof (lookup_lt_Some _ _ _ Hitems) as Hlt.
  rewrite list_lookup_insert_ne by lia.
  apply list_lookup_middle. reflexivity.
Qed.

(** X7: [next] on a new generator returns the first item of the list that
    satisfies the specification ([None] when no item does), and [list] then
    returns the satisfying items after that one. *)
Theorem next_then_list :
  ∃ junk,
    (let! g := obj_filter items l in
     let! first := gen_next fuel g in
     let! rest := py_list fuel g in
     ret (first, rest)) h
    = Some ((head (BetterFilter_filter xs s), tail (BetterFilter_filter xs s)),
            h ++ junk).
Proof.
  unfold obj_filter, BetterFilter_filter. rewrite yields_filter.
  rewrite bind_run. unfold alloc. rewrite bind_run.
  destruct (gen_next_spec fuel h items l xs s Hitems Hrep Hfuel 0 [])
    as (g' & junk1 & -> & Hg').
  rewrite bind_run. change (drop 0 xs) with xs in *.
  destruct (List.filter (is_satisfied s) xs) as [|x rest].
  - subst g'. rewrite py_list_finished by (apply list_lookup_middle; reflexivity).
    eexists. reflexivity.
  - destruct Hg' as (pos' & -> & Hrest).
    destruct (py_list_spec fuel h items l xs s Hitems Hrep Hfuel pos' ([] ++ junk1))
      as (junk2 & ->).
    rewrite Hrest. eexists. reflexivity.
Qed.

(** X8: a generator is spent by materialising it.  [list] on the same
    generator a second time returns the empty list, and so does a third
    [list] after an item has been appended to the list it was made over,
    whether or not that item satisfies the specification: the generator has
    returned, and [next] on it is [StopIteration]. *)
Theorem generator_single_pass extra :
  ∃ h',
    (let! g := obj_filter items l in
     let! first := py_list fuel g in
     let! second := py_list fuel g in
     let! _ := obj_append items extra in
     let! third := py_list fuel g in
     let! last := gen_next fuel g in
     ret (first, second, third, last)) h
    = Some ((BetterFilter_filter xs s, [], [], None), h')
    ∧ h' !! items = Some (OList (xs ++ [extra])).
Proof.
  unfold obj_filter, BetterFilter_filter. rewrite yields_filter.
  rewrite bind_run. unfold alloc. rewrite bind_run.
  destruct (py_list_spec fuel h items l xs s Hitems Hrep Hfuel 0 [])
    as (junk1 & ->).
  rewrite bind_run, py_list_finished by (apply list_lookup_middle; reflexivity).
  rewrite bind_run, (obj_append_run _ _ xs) by (apply lookup_app_l_Some, Hitems).
  rewrite bind_run, py_list_finished by apply finished_after_append.
  rewrite bind_run, gen_next_finished by apply finished_after_append.
  eexists. split; [reflexivity|].
  apply list_lookup_insert_eq. rewrite length_app.
  pose proof (lookup_lt_Some _ _ _ Hitems). lia.
Qed.

(** X9: two generators over the same list and specification do not disturb each
    other: with one advanced by a [next], the other still yields every
    satisfying item, and the first then yields the rest of its own. *)
Theorem generators_independent :
  ∃ junk,
    (let! g1 := obj_filter items l in
     let! g2 := obj_filter items l in
     let! first := gen_next fuel g1 in
     let! all := py_list fuel g2 in
     let! rest := py_list fuel g1 in
     ret (first, all, rest)) h
    = Some ((head (BetterFilter_filter xs s), BetterFilter_filter xs s,
             tail (BetterFilter_filter xs s)),
            h ++ junk).
Proof.
  unfold obj_filter, BetterFilter_filter. rewrite yields_filter.
  rewrite bind_run. unfold alloc. rewrite bind_run, <- app_assoc, bind_run.
  cbn [app].
  destruct (gen_next_spec fuel h items l xs s Hitems Hrep Hfuel 0
              [OGenerator items l 0]) as (g1 & junk1 & -> & Hg1).
  rewrite bind_run. cbn [app]. change (drop 0 xs) with xs in *.
  replace (length (h ++ [OGenerator items l 0]))
    with (length (h ++ [g1])) by (rewrite !length_app; reflexivity).
  change (h ++ g1 :: OGenerator items l 0 :: junk1)
    with (h ++ [g1] ++ OGenerator items l 0 :: junk1).
  rewrite app_assoc.
  destruct (py_list_spec fuel (h ++ [g1]) items l xs s)
    with (pos := 0) (junk := junk1) as (junk2 & ->);
    [apply lookup_app_l_Some, Hitems | apply represents_grow, Hrep | exact Hfuel |].
  rewrite bind_run, <- app_assoc. cbn [app]. change (drop 0 xs) with xs.
  destruct (List.filter (is_satisfied s) xs) as [|x rest].
  - subst g1. rewrite py_list_finished by (apply list_lookup_middle; reflexivity).
    eexists. reflexivity.
  - destruct Hg1 as (pos1 & -> & Hrest).
    destruct (py_list_spec fuel h items l xs s Hitems Hrep Hfuel pos1
                (OFinishedGenerator :: junk1 ++ junk2)) as (junk3 & ->).
    rewrite Hrest. eexists. reflexivity.
Qed.

(** X10: [print_filtered_products] on a new generator prints what it prints
    on the list of the satisfying items, and the generator has returned when
    the loop ends.  Printing the same generator again therefore prints the
    title and the closing lines only, and still does after an item has been
    appended to the list the generator was made over. *)
Theorem print_spends_generator title out extra :
  ∃ h',
    (let! g := obj_filter items l in
     let! out1 := obj_print_filtered_products fuel title g out in
     let! out2 := obj_print_filtered_products fuel title g out1 in
     let! _ := obj_append items extra in
     let! out3 := obj_print_filtered_products fuel title g out2 in
     ret (out1, out2, out3)) h
    = Some ((print_filtered_products title (BetterFilter_filter xs s) out,
             print_filtered_products title []
               (print_filtered_products title (BetterFilter_filter xs s) out),
             print_filtered_products title []
               (print_filtered_products title []
                  (print_filtered_products title (BetterFilter_filter xs s) out))),
            h')
    ∧ h' !! items = Some (OList (xs ++ [extra])).
Proof.
  unfold obj_filter, BetterFilter_filter. rewrite yields_filter.
  rewrite bind_run. unfold alloc. rewrite bind_run.
  destruct (obj_print_spec fuel h items l xs s Hitems Hrep Hfuel title 0 [] out)
    as (junk1 & ->).
  change (drop 0 xs) with xs.
  rewrite bind_run, obj_print_finished by (apply list_lookup_middle; reflexivity).
  rewrite bind_run, (obj_append_run _ _ xs) by (apply lookup_app_l_Some, Hitems).
  rewrite bind_run, obj_print_finished by apply finished_after_append.
  eexists. split; [reflexivity|].
  apply list_lookup_insert_eq. rewrite length_app.
  pose proof (lookup_lt_Some _ _ _ Hitems). lia.
Qed.

End generator_use.

Lemma next_then_list_witness :
  demo_store !! 2 = Some (OList products)
  ∧ represents demo_store large 0 = true
  ∧ height large < 1
  ∧ ∃ junk,
      (let! g := obj_filter 2 0 in
       let! first := gen_next 1 g in
       let! rest := py_list 1 g in
       ret (first, rest)) demo_store
      = Some ((head (BetterFilter_filter products large),
               tail (BetterFilter_filter products large)),
              demo_store ++ junk).
Proof.
  split_and!; [reflexivity | reflexivity | simpl; lia |].
  apply (next_then_list 1 demo_store 2 0 products large);
    [reflexivity | reflexivity | simpl; lia].
Defined.

Lemma generator_single_pass_witness :
  demo_store !! 2 = Some (OList products)
  ∧ represents demo_store large 0 = true
  ∧ height large < 1
  ∧ ∃ h',
      (let! g := obj_filter 2 0 in
       let! first := py_list 1 g in
       let! second := py_list 1 g in
       let! _ := obj_append 2 barn in
       let! third := py_list 1 g in
       let! last := gen_next 1 g in
       ret (first, second, third, last)) demo_store
      = Some ((BetterFilter_filter products large, [], [], None), h')
      ∧ h' !! 2 = Some (OList (products ++ [barn])).
Proof.
  split_and!; [reflexivity | reflexivity | simpl; lia |].
  apply (generator_single_pass 1 demo_store 2 0 products large);
    [reflexivity | reflexivity | simpl; lia].
Defined.

Lemma generators_independent_witness :
  demo_store !! 2 = Some (OList products)
  ∧ represents demo_store green 1 = true
  ∧ height green < 1
  ∧ ∃ junk,
      (let! g1 := obj_filter 2 1 in
       let! g2 := obj_filter 2 1 in
       let! first := gen_next 1 g1 in
       let! all := py_list 1 g2 in
       let! rest := py_list 1 g1 in
       ret (first, all, rest)) demo_store
      = Some ((head (BetterFilter_filter products green),
               BetterFilter_filter products green,
               tail (BetterFilter_filter products green)),
              demo_store ++ junk).
Proof.
  split_and!; [reflexivity | reflexivity | simpl; lia |].
  apply (generators_independent 1 demo_store 2 1 products green);
    [reflexivity | reflexivity | simpl; lia].
Defined.

Lemma print_spends_generator_witness :
  demo_store !! 2 = Some (OList products)
  ∧ represents demo_store large 0 = true
  ∧ height large < 1
  ∧ ∃ h',
      (let! g := obj_filter 2 0 in
       let! out1 := obj_print_filtered_products 1 "Large" g "" in
       let! out2 := obj_print_filtered_products 1 "Large" g out1 in
       let! _ := obj_append 2 barn in
       let! out3 := obj_print_filtered_products 1 "Large" g out2 in
       ret (out1, out2, out3)) demo_store
      = Some ((print_filtered_products "Large" (BetterFilter_filter products large) "",
               print_filtered_products "Large" []
                 (print_filtered_products "Large"
                    (BetterFilter_filter products large) ""),
               print_filtered_products "Large" []
                 (print_filtered_products "Large" []
                    (print_filtered_products "Large"
                       (BetterFilter_filter products large) ""))),
              h')
      ∧ h' !! 2 = Some (OList (products ++ [barn])).
Proof.
  split_and!; [reflexivity | reflexivity | simpl; lia |].
  apply (print_spends_generator 1 demo_store 2 0 products large);
    [reflexivity | reflexivity | simpl; lia].
Defined.

(** A generator that has returned yields nothing after the list has grown,
    while a new generator over the same list yields the new item too. *)
Example spent_generator_ignores_growth :
  ∃ h',
    (let! g := obj_filter 2 0 in
     let! first := py_list 1 g in
     let! _ := obj_append 2 barn in
     let! again := py_list 1 g in
     let! g' := obj_filter 2 0 in
     let! fresh := py_list 1 g' in
     ret (first, again, fresh)) demo_store
    = Some (([tree; house], [], [tree; house; barn]), h').
Proof. eexists. reflexivity. Qed.

(** * Operators and operands on the store *)

Section operands.

Implicit Types (h H : heap) (l a b : loc) (item : Product).
Implicit Types (s sa sb : Specification).

(** One [next] of a [map] object that has an element left. *)
Lemma map_next_at call item H ls pos junk child :
  ls !! pos = Some child →
  map_next call (length H) (H ++ OMap item ls pos :: junk)
  = match call child item (H ++ OMap item ls (S pos) :: junk) with
    | Some (v, h') => Some (Some v, h')
    | None => None
    end.
Proof.
  intros Hchild. unfold map_next.
  rewrite bind_run, deref_middle, Hchild, bind_run, store_middle, bind_run.
  destruct (call child item _) as [[v h']|]; reflexivity.
Qed.

(** Calling [is_satisfied] on an object that has no such method raises. *)
Lemma not_specification_raises fuel h l o item :
  h !! l = Some o → obj_is_specification o = false →
  obj_is_satisfied fuel l item h = None.
Proof.
  intros Hl Ho. destruct fuel as [|fuel]; [reflexivity|].
  cbn [obj_is_satisfied]. rewrite bind_run. unfold deref. rewrite Hl.
  destruct o; try discriminate; reflexivity.
Qed.

(** X11: the composite an operator builds evaluates to the conjunction, the
    disjunction and the exclusive disjunction of what its operands evaluate
    to, with one more level of calls than the operands need. *)
Theorem operator_result_evaluates fuel h a b sa sb item :
  represents h sa a = true → represents h sb b = true →
  height sa < fuel → height sb < fuel →
  (∃ junk, (let! x := obj_and a b in obj_is_satisfied (S fuel) x item) h
           = Some (is_satisfied sa item && is_satisfied sb item, h ++ junk))
  ∧ (∃ junk, (let! x := obj_or a b in obj_is_satisfied (S fuel) x item) h
             = Some (is_satisfied sa item || is_satisfied sb item, h ++ junk))
  ∧ (∃ junk, (let! x := obj_xor a b in obj_is_satisfied (S fuel) x item) h
             = Some (xorb (is_satisfied sa item) (is_satisfied sb item), h ++ junk)).
Proof.
  intros Ha Hb Hfa Hfb.
  destruct (operator_values sa sb item) as (Hand & Hor & Hxor).
  rewrite <- Hand, <- Hor, <- Hxor.
  unfold obj_and, obj_or, obj_xor. rewrite !bind_run. unfold alloc.
  split_and!;
    match goal with
    | |- context [Some (is_satisfied ?s item, h ++ _)] =>
        match goal with
        | |- context [h ++ [?o]] =>
            destruct (alloc_fresh h o) as (_ & Hat & _);
            destruct (obj_is_satisfied_refines item s (S fuel) (length h) (h ++ [o]))
              as [junk ->]
        end;
        [ simpl; lia
        | unfold spec_and, spec_or, spec_xor; cbn [represents]; rewrite Hat;
          apply represents_pair; apply represents_grow; assumption
        | rewrite <- app_assoc; eexists; reflexivity ]
    end.
Qed.

Lemma operator_result_evaluates_witness :
  represents demo_store large 0 = true
  ∧ represents demo_store green 1 = true
  ∧ height large < 1 ∧ height green < 1
  ∧ ∃ junk, (let! x := obj_xor 0 1 in obj_is_satisfied 2 x tree) demo_store
            = Some (xorb (is_satisfied large tree) (is_satisfied green tree),
                    demo_store ++ junk).
Proof.
  split_and!; [reflexivity | reflexivity | simpl; lia | simpl; lia |].
  apply (operator_result_evaluates 1 demo_store 0 1 large green tree);
    [reflexivity | reflexivity | simpl; lia | simpl; lia].
Defined.

(** Entering the body of a composite's [is_satisfied]: the [map] object is
    allocated after the composite. *)
Ltac enter_composite :=
  cbn [obj_is_satisfied]; rewrite bind_run; unfold deref at 1;
  rewrite list_lookup_middle by reflexivity;
  rewrite bind_run; unfold alloc at 1.

(** One turn of the loop of [any] or [all], on the child [child]. *)
Ltac next_child child :=
  cbv beta iota; cbn [length Nat.sub all_loop any_loop]; rewrite bind_run;
  rewrite (map_next_at _ _ _ _ _ _ child) by reflexivity.

(** X12: when the second operand of [&], [|] or [^] is an object without an
    [is_satisfied] method, [a & b] is false on the items that [a] rejects and
    raises on the others, [a | b] is true on the items that [a] accepts and
    raises on the others, and [a ^ b] raises on every item: [all] and [any]
    stop at the first child that decides, and only [^] always needs the
    second. *)
Theorem operand_without_method fuel h a b sa o item :
  represents h sa a = true → height sa < fuel →
  h !! b = Some o → obj_is_specification o = false →
  (if is_satisfied sa item
   then (let! x := obj_and a b in obj_is_satisfied (S fuel) x item) h = None
   else ∃ junk, (let! x := obj_and a b in obj_is_satisfied (S fuel) x item) h
                = Some (false, h ++ junk))
  ∧ (if is_satisfied sa item
     then ∃ junk, (let! x := obj_or a b in obj_is_satisfied (S fuel) x item) h
                  = Some (true, h ++ junk)
     else (let! x := obj_or a b in obj_is_satisfied (S fuel) x item) h = None)
  ∧ (let! x := obj_xor a b in obj_is_satisfied (S fuel) x item) h = None.
Proof.
  intros Ha Hfa Hb Ho.
  assert (Hcall_a : ∀ c junk,
    ∃ junk', obj_is_satisfied fuel a item ((h ++ [c]) ++ OMap item [a; b] 1 :: junk)
             = Some (is_satisfied sa item,
                     ((h ++ [c]) ++ OMap item [a; b] 1 :: junk) ++ junk')).
  { intros c junk. apply obj_is_satisfied_refines; [exact Hfa|].
    do 2 apply represents_grow. exact Ha. }
  revert Hcall_a.
  assert (Hcall_b : ∀ c junk,
    obj_is_satisfied fuel b item ((h ++ [c]) ++ OMap item [a; b] 2 :: junk) = None).
  { intros c junk. apply (not_specification_raises _ _ _ o); [|exact Ho].
    do 2 apply lookup_app_l_Some. exact Hb. }
  unfold obj_and, obj_or, obj_xor.
  destruct (is_satisfied sa item) eqn:Hva; intros Hcall_a; split_and!;
    try (rewrite bind_run; unfold alloc at 1).
  - enter_composite. unfold obj_all. rewrite bind_run, map_remaining_run.
    next_child a. destruct (Hcall_a (OAndSpecification [a; b]) []) as [junk1 ->].
    rewrite <- app_assoc, <- app_comm_cons. next_child b.
    rewrite Hcall_b. reflexivity.
  - destruct (Hcall_a (OOrSpecification [a; b]) []) as [junk1 Hrun].
    eexists. enter_composite. unfold obj_any. rewrite bind_run, map_remaining_run.
    next_child a. rewrite Hrun.
    cbv beta iota. unfold ret. rewrite <- !app_assoc. reflexivity.
  - enter_composite. rewrite bind_run.
    unfold obj_any at 1. rewrite bind_run, map_remaining_run.
    next_child a. destruct (Hcall_a (OXorSpecification [a; b]) []) as [junk1 ->].
    rewrite <- app_assoc, <- app_comm_cons. cbv beta iota. unfold ret at 1.
    rewrite bind_run. unfold obj_any. rewrite bind_run, map_remaining_run.
    next_child b. rewrite Hcall_b. reflexivity.
  - destruct (Hcall_a (OAndSpecification [a; b]) []) as [junk1 Hrun].
    eexists. enter_composite. unfold obj_all. rewrite bind_run, map_remaining_run.
    next_child a. rewrite Hrun.
    cbv beta iota. unfold ret. rewrite <- !app_assoc. reflexivity.
  - enter_composite. unfold obj_any. rewrite bind_run, map_remaining_run.
    next_child a. destruct (Hcall_a (OOrSpecification [a; b]) []) as [junk1 ->].
    rewrite <- app_assoc, <- app_comm_cons. next_child b.
    rewrite Hcall_b. reflexivity.
  - enter_composite. rewrite bind_run.
    unfold obj_any at 1. rewrite bind_run, map_remaining_run.
    next_child a. destruct (Hcall_a (OXorSpecification [a; b]) []) as [junk1 ->].
    rewrite <- app_assoc, <- app_comm_cons.
    next_child b. rewrite Hcall_b. reflexivity.
Qed.

Lemma operand_without_method_witness :
  represents demo_store large 0 = true
  ∧ height large < 1
  ∧ demo_store !! 2 = Some (OList products)
  ∧ obj_is_specification (OList products) = false
  ∧ (∃ junk, (let! x := obj_and 0 2 in obj_is_satisfied 2 x apple) demo_store
             = Some (false, demo_store ++ junk))
  ∧ (let! x := obj_or 0 2 in obj_is_satisfied 2 x apple) demo_store = None
  ∧ (let! x := obj_xor 0 2 in obj_is_satisfied 2 x apple) demo_store = None.
Proof.
  split; [reflexivity|]. split; [simpl; lia|].
  split; [reflexivity|]. split; [reflexivity|].
  exact (operand_without_method 1 demo_store 0 2 large (OList products) apple
           eq_refl (le_n 1) eq_refl eq_refl).
Defined.

End operands.

(** * Orders *)

Section orders.

Lemma string_app_assoc (s1 s2 s3 : string) :
  (s1 +:+ s2) +:+ s3 = s1 +:+ s2 +:+ s3.
Proof.
  induction s1 as [|c s1 IH]; [reflexivity|].
  change (String c ((s1 +:+ s2) +:+ s3) = String c (s1 +:+ s2 +:+ s3)).
  f_equal. exact IH.
Qed.

(** Appending to a list gives the new element the next index and leaves the
    other indices as they were. *)
Lemma alloc_like {A} (xs : list A) (x : A) :
  xs !! length xs = None
  ∧ (xs ++ [x]) !! length xs = Some x
  ∧ ∀ i, i ≠ length xs → (xs ++ [x]) !! i = xs !! i.
Proof.
  split_and!.
  - apply lookup_ge_None_2. lia.
  - apply list_lookup_middle. reflexivity.
  - intros i Hi. destruct (decide (i < length xs)%nat) as [Hlt|Hge].
    + apply lookup_app_l, Hlt.
    + rewrite !lookup_ge_None_2; [reflexivity | lia | rewrite length_app; simpl; lia].
Qed.

Local Open Scope Z_scope.

Implicit Types (w : world) (self order other : nat) (own : option string).
Implicit Types (qs ps : list Z).

(** The body of the loop of [total_price]. *)
Local Abbreviation price_step qs ps :=
  (λ (total : option Z) (i : nat),
     total ← total; quantity ← qs !! i; price ← ps !! i;
     Some (total + (quantity + price))).

Lemma price_loop_raised qs ps (indices : list nat) :
  foldl (price_step qs ps) None indices = None.
Proof. induction indices as [|i indices IH]; [reflexivity | exact IH]. Qed.

Lemma price_loop_from ps2 :
  ∀ qs2 qs1 ps1 total,
    length qs1 = length ps1 →
    foldl (price_step (qs1 ++ qs2) (ps1 ++ ps2)) (Some total)
          (seq (length ps1) (length ps2))
    = if decide (length ps2 ≤ length qs2)%nat
      then Some (total + foldr Z.add 0 (zip_with Z.add qs2 ps2))
      else None.
Proof.
  induction ps2 as [|p ps2 IH]; intros qs2 qs1 ps1 total Hlen.
  - cbn [length seq foldl]. rewrite decide_True by lia.
    destruct qs2; simpl; f_equal; lia.
  - cbn [length seq foldl]. destruct qs2 as [|q qs2].
    + rewrite decide_False by (simpl; lia).
      cbn [mbind option_bind]. rewrite app_nil_r.
      rewrite (lookup_ge_None_2 qs1) by lia. apply price_loop_raised.
    + cbn [mbind option_bind].
      rewrite (list_lookup_middle qs1) by lia.
      rewrite (list_lookup_middle ps1) by reflexivity.
      cbn [mbind option_bind].
      specialize (IH qs2 (qs1 ++ [q]) (ps1 ++ [p]) (total + (q + p))).
      rewrite !length_app, <- !app_assoc in IH. cbn [length app] in IH.
      rewrite !Nat.add_1_r in IH. rewrite IH by lia.
      cbn [length zip_with foldr].
      destruct (decide (length ps2 ≤ length qs2)%nat);
        [rewrite decide_True by lia; f_equal; lia | rewrite decide_False by lia; reflexivity].
Qed.

Lemma zip_add_sum qs :
  ∀ ps, length qs = length ps →
  foldr Z.add 0 (zip_with Z.add qs ps) = foldr Z.add 0 qs + foldr Z.add 0 ps.
Proof.
  induction qs as [|q qs IH]; intros [|p ps] Hlen; simpl in *; try lia.
  rewrite IH by lia. lia.
Qed.

Lemma total_price_run self own w :
  Order_instances w !! self = Some own →
  total_price self w
  = if decide (length (Order_prices w) ≤ length (Order_quantities w))%nat
    then Some (foldr Z.add 0 (zip_with Z.add (Order_quantities w) (Order_prices w)))
    else None.
Proof.
  intros Hself. unfold total_price. rewrite Hself. cbn [mbind option_bind].
  apply (price_loop_from (Order_prices w) (Order_quantities w) [] [] 0).
  reflexivity.
Qed.

Lemma total_price_aligned self own w :
  Order_instances w !! self = Some own →
  length (Order_quantities w) = length (Order_prices w) →
  total_price self w
  = Some (foldr Z.add 0 (Order_quantities w) + foldr Z.add 0 (Order_prices w)).
Proof.
  intros Hself Hlen. rewrite (total_price_run _ _ _ Hself), decide_True by lia.
  rewrite zip_add_sum by exact Hlen. reflexivity.
Qed.

Lemma sum_snoc (zs : list Z) (z : Z) :
  foldr Z.add 0 (zs ++ [z]) = foldr Z.add 0 zs + z.
Proof. induction zs as [|z' zs IH]; simpl; [lia | rewrite IH; lia]. Qed.

(** X13: [total_price] on an order of the world adds, for every price, the
    quantity at the same index and the price: a sum, not a product.  With a
    quantity for every price that is its value, the quantities beyond the
    last price being left out; with fewer quantities than prices, and only
    then, it raises [IndexError].  With as many quantities as prices it is
    the sum of the quantities plus the sum of the prices. *)
Theorem total_price_sums self own w :
  Order_instances w !! self = Some own →
  total_price self w
  = (if decide (length (Order_prices w) ≤ length (Order_quantities w))%nat
     then Some (foldr Z.add 0
                  (zip_with Z.add (Order_quantities w) (Order_prices w)))
     else None)
  ∧ (total_price self w = None
     ↔ (length (Order_quantities w) < length (Order_prices w))%nat)
  ∧ (length (Order_quantities w) = length (Order_prices w) →
     total_price self w
     = Some (foldr Z.add 0 (Order_quantities w) + foldr Z.add 0 (Order_prices w))).
Proof.
  intros Hself. split; [apply total_price_run with own, Hself|]. split.
  - rewrite (total_price_run _ _ _ Hself).
    destruct (decide (length (Order_prices w) ≤ length (Order_quantities w))%nat);
      split; intros; try discriminate; try lia; reflexivity.
  - apply total_price_aligned with own, Hself.
Qed.

Lemma total_price_sums_witness :
  Order_instances demo_world !! 0%nat = Some None
  ∧ total_price 0 demo_world
    = (if decide (length (Order_prices demo_world)
                  ≤ length (Order_quantities demo_world))%nat
       then Some (foldr Z.add 0
                    (zip_with Z.add (Order_quantities demo_world)
                                    (Order_prices demo_world)))
       else None)
  ∧ (total_price 0 demo_world = None
     ↔ (length (Order_quantities demo_world) < length (Order_prices demo_world))%nat)
  ∧ (length (Order_quantities demo_world) = length (Order_prices demo_world) →
     total_price 0 demo_world
     = Some (foldr Z.add 0 (Order_quantities demo_world)
             + foldr Z.add 0 (Order_prices demo_world))).
Proof.
  split; [reflexivity|].
  apply (total_price_sums 0 None demo_world). reflexivity.
Defined.

(** One quantity more than prices: the second quantity is left out; one
    price more than quantities: [IndexError]. *)
Example total_price_unaligned :
  total_price 0 (mkWorld ["a"; "b"]%string [1; 2] [150] [None] "") = Some 151
  ∧ total_price 0 (mkWorld ["a"; "b"]%string [1] [150; 100] [None] "") = None.
Proof. split; reflexivity. Qed.

(** X14: the lines of an order are the lines of every order: after [add_item] on
    one order, [total_price] on any order of the world, the same or another,
    is greater by the quantity plus the price.  [add_item] keeps as many
    quantities as prices and changes no status and no output. *)
Theorem add_item_reaches_every_order self own other own' item_name quantity price w :
  Order_instances w !! self = Some own →
  Order_instances w !! other = Some own' →
  length (Order_quantities w) = length (Order_prices w) →
  ∃ w' total,
    add_item self item_name quantity price w = Some w'
    ∧ length (Order_quantities w') = length (Order_prices w')
    ∧ total_price other w = Some total
    ∧ total_price other w' = Some (total + (quantity + price))
    ∧ Order_instances w' = Order_instances w
    ∧ stdout w' = stdout w.
Proof.
  intros Hself Hother Hlen. unfold add_item. rewrite Hself. cbn [mbind option_bind].
  eexists _, _. split; [reflexivity|]. cbn [Order_quantities Order_prices].
  split; [rewrite !length_app; simpl; lia|].
  split; [apply total_price_aligned with own'; assumption|].
  split; [|split; reflexivity].
  rewrite (total_price_aligned other own') by
    (try exact Hother; cbn [Order_quantities Order_prices];
     rewrite !length_app; simpl; lia).
  cbn [Order_quantities Order_prices]. rewrite !sum_snoc. f_equal. lia.
Qed.

Lemma add_item_reaches_every_order_witness :
  let w := (Order_new demo_world).2 in
  Order_instances w !! 1%nat = Some None
  ∧ Order_instances w !! 0%nat = Some None
  ∧ length (Order_quantities w) = length (Order_prices w)
  ∧ ∃ w' total,
      add_item 1 "Cable" 2 5 w = Some w'
      ∧ length (Order_quantities w') = length (Order_prices w')
      ∧ total_price 0 w = Some total
      ∧ total_price 0 w' = Some (total + (2 + 5))
      ∧ Order_instances w' = Order_instances w
      ∧ stdout w' = stdout w.
Proof.
  intros w. split; [reflexivity|]. split; [reflexivity|]. split; [reflexivity|].
  apply (add_item_reaches_every_order 1 None 0 None "Cable" 2 5 w); reflexivity.
Defined.

(** X15: [Order()] makes an order that no one had, with status ["open"], and with
    the lines of all the orders made before it: its total is theirs, not
    zero.  The orders made before keep their status. *)
Theorem new_order_has_old_lines w :
  length (Order_quantities w) = length (Order_prices w) →
  Order_instances w !! (Order_new w).1 = None
  ∧ Order_status (Order_new w).1 (Order_new w).2 = Some "open"%string
  ∧ total_price (Order_new w).1 (Order_new w).2
    = Some (foldr Z.add 0 (Order_quantities w) + foldr Z.add 0 (Order_prices w))
  ∧ ∀ other, other ≠ (Order_new w).1 →
      Order_status other (Order_new w).2 = Order_status other w.
Proof.
  intros Hlen. unfold Order_new. cbn [fst snd].
  destruct (alloc_like (Order_instances w) None) as (Hnew & Hat & Hold).
  split_and!.
  - exact Hnew.
  - unfold Order_status. cbn [Order_instances]. rewrite Hat. reflexivity.
  - apply (total_price_aligned (length (Order_instances w)) None
             (mkWorld (Order_items w) (Order_quantities w) (Order_prices w)
                      (Order_instances w ++ [None]) (stdout w)));
      [exact Hat | exact Hlen].
  - intros other Hother. unfold Order_status. cbn [Order_instances].
    rewrite (Hold other Hother). reflexivity.
Qed.

Lemma new_order_has_old_lines_witness :
  length (Order_quantities demo_world) = length (Order_prices demo_world)
  ∧ Order_instances demo_world !! (Order_new demo_world).1 = None
  ∧ Order_status (Order_new demo_world).1 (Order_new demo_world).2
    = Some "open"%string
  ∧ total_price (Order_new demo_world).1 (Order_new demo_world).2
    = Some (foldr Z.add 0 (Order_quantities demo_world)
            + foldr Z.add 0 (Order_prices demo_world))
  ∧ ∀ other, other ≠ (Order_new demo_world).1 →
      Order_status other (Order_new demo_world).2 = Order_status other demo_world.
Proof.
  split; [reflexivity|].
  apply (new_order_has_old_lines demo_world). reflexivity.
Defined.

(** X16: [pay] gives the order a status of its own, ["paid"], whatever it was,
    and appends two lines to the output.  Every other order keeps its
    status, the lines and every total are unchanged, and another processor
    in the place of this one leaves the same orders and lines: only the
    output differs. *)
Theorem pay_sets_one_status (self : PaymentProcessor) order own w :
  Order_instances w !! order = Some own →
  ∃ w',
    pay self order w = Some w'
    ∧ Order_status order w' = Some "paid"%string
    ∧ (∀ other, other ≠ order → Order_status other w' = Order_status other w)
    ∧ (∀ other, total_price other w' = total_price other w)
    ∧ (Order_items w', Order_quantities w', Order_prices w')
      = (Order_items w, Order_quantities w, Order_prices w)
    ∧ stdout w'
      = stdout w +:+ (pay_lines self).1 +:+ newline
                 +:+ (pay_lines self).2 +:+ newline
    ∧ ∀ processor,
        ∃ w'', pay processor order w = Some w''
               ∧ Order_instances w'' = Order_instances w'
               ∧ (Order_items w'', Order_quantities w'', Order_prices w'')
                 = (Order_items w', Order_quantities w', Order_prices w').
Proof.
  intros Horder. unfold pay. rewrite Horder. cbn [mbind option_bind].
  eexists. split; [reflexivity|].
  pose proof (lookup_lt_Some _ _ _ Horder) as Hlt.
  split_and!.
  - unfold Order_status. cbn [Order_instances].
    rewrite list_lookup_insert_eq by exact Hlt. reflexivity.
  - intros other Hother. unfold Order_status. cbn [Order_instances].
    rewrite list_lookup_insert_ne by congruence. reflexivity.
  - intros other. unfold total_price.
    cbn [Order_instances Order_quantities Order_prices].
    destruct (decide (other = order)) as [->|Hother].
    + rewrite list_lookup_insert_eq by exact Hlt. rewrite Horder. reflexivity.
    + rewrite list_lookup_insert_ne by congruence. reflexivity.
  - reflexivity.
  - cbn [stdout]. unfold print. rewrite !string_app_assoc. reflexivity.
  - intros processor. eexists. split_and!; reflexivity.
Qed.

Lemma pay_sets_one_status_witness :
  let w := (Order_new demo_world).2 in
  Order_instances w !! 0%nat = Some None
  ∧ ∃ w',
      pay (PaypalPaymentProcessor "test@email.com") 0 w = Some w'
      ∧ Order_status 0 w' = Some "paid"%string
      ∧ (∀ other, other ≠ 0%nat → Order_status other w' = Order_status other w)
      ∧ (∀ other, total_price other w' = total_price other w)
      ∧ (Order_items w', Order_quantities w', Order_prices w')
        = (Order_items w, Order_quantities w, Order_prices w)
      ∧ stdout w'
        = stdout w +:+ (pay_lines (PaypalPaymentProcessor "test@email.com")).1
                   +:+ newline
                   +:+ (pay_lines (PaypalPaymentProcessor "test@email.com")).2
                   +:+ newline
      ∧ ∀ processor,
          ∃ w'', pay processor 0 w = Some w''
                 ∧ Order_instances w'' = Order_instances w'
                 ∧ (Order_items w'', Order_quantities w'', Order_prices w'')
                   = (Order_items w', Order_quantities w', Order_prices w').
Proof.
  intros w. split; [reflexivity|].
  apply (pay_sets_one_status (PaypalPaymentProcessor "test@email.com") 0 None w).
  reflexivity.
Defined.

End orders.

(** * More on the journal *)

Section journal_entries.

Local Open Scope Z_scope.

Implicit Types (j : Journal) (k : Z) (text : string).

Lemma remove_entry_index j k :
  remove_entry k j
  = let n := Z.of_nat (length (entries j)) in
    if decide (1 ≤ k ≤ n) then Some (mkJournal (delete (Z.to_nat (k - 1)) (entries j)))
    else if decide (1 - n ≤ k ≤ 0)
         then Some (mkJournal (delete (Z.to_nat (k - 1 + n)) (entries j)))
         else None.
Proof.
  unfold remove_entry. cbv zeta.
  destruct (Z.ltb_spec (k - 1) 0) as [Hneg|Hpos].
  - rewrite decide_False by lia.
    destruct (Z.ltb_spec (k - 1 + Z.of_nat (length (entries j))) 0);
      destruct (Z.leb_spec (Z.of_nat (length (entries j)))
                  (k - 1 + Z.of_nat (length (entries j)))); simpl;
      try lia; (rewrite decide_False by lia) || (rewrite decide_True by lia);
      reflexivity.
  - destruct (Z.ltb_spec (k - 1) 0); [lia|].
    destruct (Z.leb_spec (Z.of_nat (length (entries j))) (k - 1)); simpl.
    + rewrite !decide_False by lia. reflexivity.
    + rewrite decide_True by lia. reflexivity.
Qed.

(** X17: [remove_entry] raises [IndexError] exactly when the entry number is
    above the number of entries or at most its opposite; on an empty journal
    it always raises.  When it does not raise, the journal has one entry
    less. *)
Theorem remove_entry_raises_iff j k :
  (remove_entry k j = None
   ↔ Z.of_nat (length (entries j)) < k ∨ k ≤ - Z.of_nat (length (entries j)))
  ∧ ∀ j', remove_entry k j = Some j' →
          S (length (entries j')) = length (entries j).
Proof.
  rewrite remove_entry_index. cbv zeta.
  destruct (decide (1 ≤ k ≤ Z.of_nat (length (entries j)))) as [Hk|Hk];
    [|destruct (decide (1 - Z.of_nat (length (entries j)) ≤ k ≤ 0)) as [Hk'|Hk']].
  - split; [split; [discriminate | lia]|].
    intros j' [= <-]. cbn [entries].
    rewrite length_delete by (apply lookup_lt_is_Some_2; lia). lia.
  - split; [split; [discriminate | lia]|].
    intros j' [= <-]. cbn [entries].
    rewrite length_delete by (apply lookup_lt_is_Some_2; lia). lia.
  - split; [split; [lia | reflexivity]|]. discriminate.
Qed.

(** X18: entry numbers from 0 downwards count from the end: 0 is the last entry,
    -1 the one before it.  So on every journal, the empty one too,
    [remove_entry(0)] undoes [add_entry] without knowing how many entries
    there are. *)
Theorem entry_numbers_from_the_end j k :
  (1 - Z.of_nat (length (entries j)) ≤ k ≤ 0 →
   remove_entry k j = remove_entry (k + Z.of_nat (length (entries j))) j)
  ∧ ∀ text, remove_entry 0 (add_entry text j) = Some j.
Proof.
  split.
  - intros Hk. rewrite !remove_entry_index. cbv zeta.
    rewrite (decide_False (P := 1 ≤ k ≤ _)) by lia.
    rewrite (decide_True (P := 1 - _ ≤ k ≤ 0)) by lia.
    rewrite decide_True by lia.
    do 3 f_equal. lia.
  - intros text. rewrite remove_entry_index. cbv zeta.
    destruct j as [es]. unfold add_entry. cbn [entries].
    rewrite length_app. cbn [length].
    rewrite decide_False by lia. rewrite decide_True by lia.
    replace (Z.to_nat (0 - 1 + Z.of_nat (length es + 1))) with (length es) by lia.
    rewrite delete_middle, app_nil_r. reflexivity.
Qed.

Lemma entry_numbers_from_the_end_witness :
  let j := mkJournal ["I cried today."; "I ate a bug."]%string in
  1 - Z.of_nat (length (entries j)) ≤ -1 ≤ 0
  ∧ remove_entry (-1) j = remove_entry (-1 + Z.of_nat (length (entries j))) j
  ∧ (∀ text, remove_entry 0 (add_entry text j) = Some j)
  ∧ (∀ text, remove_entry 0 (add_entry text Journal_init) = Some Journal_init).
Proof.
  intros j.
  assert (Hk : 1 - Z.of_nat (length (entries j)) ≤ -1 ≤ 0) by (simpl; lia).
  split; [exact Hk|].
  split; [exact (proj1 (entry_numbers_from_the_end j (-1)) Hk)|].
  split; [exact (proj2 (entry_numbers_from_the_end j (-1)))|].
  exact (proj2 (entry_numbers_from_the_end Journal_init 0)).
Defined.

Lemma concat_snoc (sep : string) (lines : list string) (line line' : string) :
  String.concat sep ((line :: lines) ++ [line'])
  = String.concat sep (line :: lines) +:+ sep +:+ line'.
Proof.
  revert line. induction lines as [|next lines IH]; intros line.
  - reflexivity.
  - change (line +:+ sep +:+ String.concat sep ((next :: lines) ++ [line'])
            = (line +:+ sep +:+ String.concat sep (next :: lines))
              +:+ sep +:+ line').
    rewrite IH, !string_app_assoc. reflexivity.
Qed.

(** X19: the listing of a journal after [add_entry] is the listing before,
    followed on a new line by the new entry under the next number; the first
    entry makes the only line, under number 1.  The lines above keep their
    numbers. *)
Theorem listing_after_add_entry j text :
  Journal_str (add_entry text j)
  = match entries j with
    | [] => "1: " +:+ text
    | _ :: _ =>
        Journal_str j +:+ newline
        +:+ pretty (length (entries j) + 1)%nat +:+ ": " +:+ text
    end.
Proof.
  unfold Journal_str, add_entry. cbn [entries].
  rewrite imap_app. cbn [imap]. rewrite Nat.add_0_r.
  destruct (entries j) as [|entry rest]; [reflexivity|].
  rewrite imap_cons. apply concat_snoc.
Qed.

End journal_entries.

(** * The old filters *)

Section old_filters.

Implicit Types (items : list Product) (c : Color) (z : Size).

(** X20: filtering by size and color at once is filtering by color and then by
    size, or by size and then by color. *)
Theorem old_filters_compose items z c :
  filter_by_size_and_color items z c = filter_by_size (filter_by_color items c) z
  ∧ filter_by_size_and_color items z c
    = filter_by_color (filter_by_size items z) c.
Proof.
  unfold filter_by_size_and_color, filter_by_size, filter_by_color.
  rewrite !(yields_filter (λ item, Color_is (color item) c)).
  rewrite !(yields_filter (λ item, Size_is (size item) z)).
  rewrite (yields_filter (λ item, Color_is (color item) c && Size_is (size item) z)).
  rewrite !filter_filter. split; [reflexivity|].
  apply List.filter_ext. intros item. apply Bool.andb_comm.
Qed.

(** X21: every product has one color and one size: the products of the three
    colors, taken together, are the products of the input, each as often as
    in the input, and so are the products of the three sizes. *)
Theorem old_filters_partition items :
  items ≡ₚ filter_by_color items RED ++ filter_by_color items GREEN
           ++ filter_by_color items BLUE
  ∧ items ≡ₚ filter_by_size items SMALL ++ filter_by_size items MEDIUM
             ++ filter_by_size items LARGE.
Proof.
  unfold filter_by_color, filter_by_size.
  rewrite !(yields_filter (λ item, Color_is (color item) _)).
  rewrite !(yields_filter (λ item, Size_is (size item) _)).
  split; induction items as [|item items IH]; try reflexivity;
    cbn [List.filter]; unfold Color_is, Size_is.
  - destruct (color item); simpl.
    + apply Permutation_skip, IH.
    + rewrite <- Permutation_middle. apply Permutation_skip, IH.
    + rewrite app_assoc, <- Permutation_middle, <- app_assoc.
      apply Permutation_skip, IH.
  - destruct (size item); simpl.
    + apply Permutation_skip, IH.
    + rewrite <- Permutation_middle. apply Permutation_skip, IH.
    + rewrite app_assoc, <- Permutation_middle, <- app_assoc.
      apply Permutation_skip, IH.
Qed.

End old_filters.
